(** * nvcomp.hpp: the C++ layer of nvcomp

    A shallow embedding of [include/nvcomp.hpp]: the exception class
    [NVCompException], the helper [throwExceptionIfError], the type
    dispatch [getnvcompType] and the two abstract classes [Compressor]
    and [Decompressor].

    C++ exceptions are modelled by a result type ([Return] / [Throw]);
    a member function that may change its object takes the object's state
    and returns the new one. *)

From Stdlib Require Import ZArith Lia Ascii String List Bool.
From Stdlib Require Import DecimalFacts DecimalPos DecimalZ DecimalString.
From stdpp Require Import base option list gmap strings.

Local Open Scope Z_scope.

(** ** Part I: the embedding *)

(** *** Status codes (nvcomp.h) *)

(** [nvcompError_t] is a C enum declared in [nvcomp.h]; a value of it is
    modelled by the integer it converts to. *)
Definition nvcompError_t : Type := Z.

(** The enumerators of [nvcompError_t] that [nvcomp.hpp] and its contract
    name.  Their numeric values are fixed by [nvcomp.h], which is not part
    of the modelled sources, so they are taken as parameters. *)
Class nvcomp_h : Type := {
  nvcompSuccess : nvcompError_t;
  nvcompErrorInvalidValue : nvcompError_t;
  nvcompErrorNotSupported : nvcompError_t;
  nvcompErrorCannotDecompress : nvcompError_t
}.

(** The values upstream nvcomp gives the enumerators; used to instantiate
    the parameters on concrete inputs. *)
Definition nvcomp_h_upstream : nvcomp_h :=
  {| nvcompSuccess := 0;
     nvcompErrorInvalidValue := 10;
     nvcompErrorNotSupported := 11;
     nvcompErrorCannotDecompress := 12 |}.

(** *** std::to_string(int) *)

(** ['0' + d] for a decimal digit [d]. *)
Definition digit_char (d : Z) : ascii := ascii_of_N (48 + Z.to_N d).

(** The digits of [val], most significant first, written in front of
    [acc]: the loop of the standard library's [to_chars], which produces
    [val % 10] and continues with [val / 10] until one digit is left. *)
Fixpoint to_chars_10 (fuel : nat) (val : Z) (acc : string) : string :=
  match fuel with
  | O => acc
  | S fuel' =>
      let acc' := String (digit_char (val mod 10)) acc in
      if val <? 10 then acc' else to_chars_10 fuel' (val / 10) acc'
  end.

(** A bound on the number of decimal digits of [uval]: its number of
    binary digits. *)
Definition to_chars_len (uval : Z) : nat := S (Z.to_nat (Z.log2 uval)).

(** [std::to_string(int)], to which the enum value converts: a minus
    sign for a negative value, then the decimal digits of the magnitude.
    The library takes the magnitude in [unsigned], where that of
    [INT_MIN] fits; in [Z] no value wraps. *)
Definition to_string (val : Z) : string :=
  let neg := val <? 0 in
  let uval := if neg then - val else val in
  let digits := to_chars_10 (to_chars_len uval) uval EmptyString in
  if neg then String "-"%char digits else digits.

(** *** class NVCompException *)

(** The object holds the message of its [std::runtime_error] base
    ([what]) and the private member [m_err]. *)
Record NVCompException : Type := mkNVCompException {
  what : string;
  m_err : nvcompError_t
}.

(** The constructor [NVCompException(err, msg)]. *)
Definition NVCompException_new (err : nvcompError_t) (msg : string)
  : NVCompException :=
  {| what := msg +:+ " : code=" +:+ to_string err +:+ ".";
     m_err := err |}.

(** [get_error() const]. *)
Definition get_error (e : NVCompException) : nvcompError_t := m_err e.

(** *** Exceptions *)

(** The outcome of a call that may throw an [NVCompException]. *)
Inductive Result (A : Type) : Type :=
| Return (a : A)
| Throw (e : NVCompException).
Arguments Return {A} a.
Arguments Throw {A} e.

(** Sequencing: an exception thrown by the first computation leaves the
    second one unexecuted and propagates unchanged. *)
Definition bind {A B : Type} (r : Result A) (k : A -> Result B) : Result B :=
  match r with
  | Return a => k a
  | Throw e => Throw e
  end.


Definition throws {A : Type} (r : Result A) : bool :=
  match r with
  | Return _ => false
  | Throw _ => true
  end.

(** *** throwExceptionIfError *)

Section Helpers.
Context {codes : nvcomp_h}.

Definition throwExceptionIfError (error : nvcompError_t) (msg : string)
  : Result unit :=
  if negb (error =? nvcompSuccess)
  then Throw (NVCompException_new error msg)
  else Return tt.

End Helpers.

(** *** C++ element types and <cstdint> *)

(** The types [getnvcompType] can be instantiated with: the fundamental
    arithmetic types, and const-qualified, pointer and class types as
    examples of all the others.  Two types are the same type
    ([std::is_same]) exactly when they are the same term. *)
Inductive CppType : Type :=
| t_bool
| t_char
| t_signed_char
| t_unsigned_char
| t_char16_t
| t_char32_t
| t_short
| t_unsigned_short
| t_int
| t_unsigned_int
| t_long
| t_unsigned_long
| t_long_long
| t_unsigned_long_long
| t_float
| t_double
| t_const (T : CppType)
| t_pointer (T : CppType)
| t_class (name : string).

#[global] Instance CppType_eq_dec : EqDecision CppType.
Proof. solve_decision. Defined.

(** [std::is_same<T, U>::value]. *)
Definition is_same (T U : CppType) : bool := bool_decide (T = U).

(** What the implementation fixes: the widths of the integer types, the
    signedness of plain [char], and the types the fixed-width aliases of
    [<cstdint>] name. *)
Record Platform : Type := {
  bool_bits : Z;
  char_is_signed : bool;
  short_bits : Z;
  int_bits : Z;
  long_bits : Z;
  long_long_bits : Z;
  int8_t : CppType;
  uint8_t : CppType;
  int16_t : CppType;
  uint16_t : CppType;
  int32_t : CppType;
  uint32_t : CppType;
  int64_t : CppType;
  uint64_t : CppType
}.

(** Signedness ([true] for signed) and width in bits of an integer type;
    [None] for a type that is not a cv-unqualified integer type.  A
    platform that provides [int8_t] has 8-bit bytes, hence the width of
    the character types. *)
Definition integer_kind (P : Platform) (T : CppType) : option (bool * Z) :=
  match T with
  | t_bool => Some (false, bool_bits P)
  | t_char => Some (char_is_signed P, 8)
  | t_signed_char => Some (true, 8)
  | t_unsigned_char => Some (false, 8)
  | t_char16_t => Some (false, 16)
  | t_char32_t => Some (false, 32)
  | t_short => Some (true, short_bits P)
  | t_unsigned_short => Some (false, short_bits P)
  | t_int => Some (true, int_bits P)
  | t_unsigned_int => Some (false, int_bits P)
  | t_long => Some (true, long_bits P)
  | t_unsigned_long => Some (false, long_bits P)
  | t_long_long => Some (true, long_long_bits P)
  | t_unsigned_long_long => Some (false, long_long_bits P)
  | _ => None
  end.

(** The standard signed and unsigned integer types: the only types a
    fixed-width alias may name ([bool] and the character types [char],
    [char16_t], [char32_t] are integral but not among them). *)
Definition is_standard_integer (T : CppType) : bool :=
  match T with
  | t_signed_char | t_unsigned_char | t_short | t_unsigned_short
  | t_int | t_unsigned_int | t_long | t_unsigned_long
  | t_long_long | t_unsigned_long_long => true
  | _ => false
  end.

(** [T] is a standard integer type of the given signedness and width. *)
Definition exact_width (P : Platform) (T : CppType) (signed : bool) (bits : Z)
  : bool :=
  is_standard_integer T && bool_decide (integer_kind P T = Some (signed, bits)).

(** What the language standard requires of [<cstdint>]: [intN_t] is a
    signed integer type of width exactly [N], [uintN_t] an unsigned one. *)
Definition cstdint_conforming (P : Platform) : bool :=
  exact_width P (int8_t P) true 8 && exact_width P (uint8_t P) false 8 &&
  exact_width P (int16_t P) true 16 && exact_width P (uint16_t P) false 16 &&
  exact_width P (int32_t P) true 32 && exact_width P (uint32_t P) false 32 &&
  exact_width P (int64_t P) true 64 && exact_width P (uint64_t P) false 64.

(** The eight element types nvcomp supports on platform [P]. *)
Definition supported_types (P : Platform) : list CppType :=
  [int8_t P; uint8_t P; int16_t P; uint16_t P;
   int32_t P; uint32_t P; int64_t P; uint64_t P].

(** 64-bit Linux (LP64, glibc): [int64_t] is [long]. *)
Definition linux_x86_64 : Platform :=
  {| bool_bits := 8; char_is_signed := true;
     short_bits := 16; int_bits := 32; long_bits := 64; long_long_bits := 64;
     int8_t := t_signed_char; uint8_t := t_unsigned_char;
     int16_t := t_short; uint16_t := t_unsigned_short;
     int32_t := t_int; uint32_t := t_unsigned_int;
     int64_t := t_long; uint64_t := t_unsigned_long |}.

(** 64-bit Windows (LLP64): [long] has 32 bits and [int64_t] is
    [long long]. *)
Definition windows_x64 : Platform :=
  {| bool_bits := 8; char_is_signed := true;
     short_bits := 16; int_bits := 32; long_bits := 32; long_long_bits := 64;
     int8_t := t_signed_char; uint8_t := t_unsigned_char;
     int16_t := t_short; uint16_t := t_unsigned_short;
     int32_t := t_int; uint32_t := t_unsigned_int;
     int64_t := t_long_long; uint64_t := t_unsigned_long_long |}.

(** *** nvcompType_t and getnvcompType *)

(** Modelled from the spec: the enum [nvcompType_t] is declared in
    [nvcomp.h], which is not among the sources; the spec's Type Tag is an
    enumerated value identifying one of the eight supported element
    types.  The enumerators are those [getnvcompType] names. *)
Inductive nvcompType_t : Type :=
| NVCOMP_TYPE_CHAR
| NVCOMP_TYPE_UCHAR
| NVCOMP_TYPE_SHORT
| NVCOMP_TYPE_USHORT
| NVCOMP_TYPE_INT
| NVCOMP_TYPE_UINT
| NVCOMP_TYPE_LONGLONG
| NVCOMP_TYPE_ULONGLONG.

#[global] Instance nvcompType_t_eq_dec : EqDecision nvcompType_t.
Proof. solve_decision. Defined.

(** The tags in the order of the element types of [supported_types]. *)
Definition supported_tags : list nvcompType_t :=
  [NVCOMP_TYPE_CHAR; NVCOMP_TYPE_UCHAR; NVCOMP_TYPE_SHORT; NVCOMP_TYPE_USHORT;
   NVCOMP_TYPE_INT; NVCOMP_TYPE_UINT; NVCOMP_TYPE_LONGLONG; NVCOMP_TYPE_ULONGLONG].

Section TypeDispatch.
Context {codes : nvcomp_h}.
Variable P : Platform.

(** [template <typename T> nvcompType_t getnvcompType()], instantiated at
    [T]. *)
Definition getnvcompType (T : CppType) : Result nvcompType_t :=
  if is_same T (int8_t P) then Return NVCOMP_TYPE_CHAR
  else if is_same T (uint8_t P) then Return NVCOMP_TYPE_UCHAR
  else if is_same T (int16_t P) then Return NVCOMP_TYPE_SHORT
  else if is_same T (uint16_t P) then Return NVCOMP_TYPE_USHORT
  else if is_same T (int32_t P) then Return NVCOMP_TYPE_INT
  else if is_same T (uint32_t P) then Return NVCOMP_TYPE_UINT
  else if is_same T (int64_t P) then Return NVCOMP_TYPE_LONGLONG
  else if is_same T (uint64_t P) then Return NVCOMP_TYPE_ULONGLONG
  else Throw (NVCompException_new nvcompErrorNotSupported
                "nvcomp does not support the given type.").

(** The exception [getnvcompType] throws. *)
Definition unsupported_type : NVCompException :=
  NVCompException_new nvcompErrorNotSupported
                      "nvcomp does not support the given type.".

End TypeDispatch.

(** *** Decimal numerals *)

(** The reading of decimal numerals, against which [to_string] is
    specified, and the reading of a status code back from a message. *)

Definition is_digit (c : ascii) : bool :=
  let n := N_of_ascii c in ((48 <=? n) && (n <=? 57))%N.

Definition digit_val (c : ascii) : Z := Z.of_N (N_of_ascii c) - 48.

Fixpoint all_digits (s : string) : bool :=
  match s with
  | EmptyString => true
  | String c s' => is_digit c && all_digits s'
  end.

(** The number a string of digits denotes, continuing from [acc]. *)
Fixpoint horner (s : string) (acc : Z) : Z :=
  match s with
  | EmptyString => acc
  | String c s' => horner s' (10 * acc + digit_val c)
  end.

(** The weight of the digit in front of the digit string [s]. *)
Definition pow10 (s : string) : Z := 10 ^ Z.of_nat (String.length s).

(** A digit string in canonical form: not empty, and no leading zero
    unless it is the single digit 0. *)
Definition canonical_digits (ds : string) : bool :=
  match ds with
  | EmptyString => false
  | String c EmptyString => is_digit c
  | String c ds' => is_digit c && negb (Ascii.eqb c "0"%char) && all_digits ds'
  end.

(** [s] is the decimal rendering of [z]: the canonical digits of [|z|],
    behind a minus sign exactly when [z] is negative. *)
Definition is_decimal_rendering (s : string) (z : Z) : Prop :=
  exists ds : string,
    canonical_digits ds = true /\ horner ds 0 = Z.abs z /\
    s = if z <? 0 then String "-"%char ds else ds.

(** Reads digits from the front of [s] as long as there are any: the value
    read, continuing from [acc], and the rest of the string. *)
Fixpoint read_digits (s : string) (acc : Z) : Z * string :=
  match s with
  | EmptyString => (acc, EmptyString)
  | String c s' =>
      if is_digit c then read_digits s' (10 * acc + digit_val c) else (acc, s)
  end.

(** A string that does not continue a numeral: it is empty or starts
    with a character that is no digit. *)
Definition stops_numeral (rest : string) : Prop :=
  match rest with
  | EmptyString => True
  | String c _ => is_digit c = false
  end.

(** Reads an optional minus sign and at least one digit from the front
    of [s]. *)
Definition read_int (s : string) : option (Z * string) :=
  match s with
  | EmptyString => None
  | String c s' =>
      if Ascii.eqb c "-"%char then
        match s' with
        | EmptyString => None
        | String d _ =>
            if is_digit d
            then let '(v, rest) := read_digits s' 0 in Some (- v, rest)
            else None
        end
      else if is_digit c then Some (read_digits s 0) else None
  end.

(** The part of [s] behind the last occurrence of [c]. *)
Fixpoint after_last (c : ascii) (s : string) : option string :=
  match s with
  | EmptyString => None
  | String a s' =>
      match after_last c s' with
      | Some t => Some t
      | None => if Ascii.eqb a c then Some s' else None
      end
  end.

(** Does [c] occur in [s]? *)
Fixpoint occurs (c : ascii) (s : string) : bool :=
  match s with
  | EmptyString => false
  | String a s' => Ascii.eqb a c || occurs c s'
  end.

(** The status code a message ends with: the integer between the last
    ['='] and the final full stop. *)
Definition code_of_message (s : string) : option Z :=
  match after_last "="%char s with
  | Some t =>
      match read_int t with
      | Some (v, String "."%char EmptyString) => Some v
      | _ => None
      end
  | None => None
  end.

(** *** Device memory and streams *)

(** [size_t] values are modelled by the integers they denote; the model
    compares sizes and does no arithmetic on them. *)
Abbreviation size_t := Z (only parsing).

(** A [void*] into device memory: the base address of a buffer. *)
Abbreviation device_ptr := Z (only parsing).

(** A [size_t*]: the address of a size the device can write. *)
Abbreviation size_ptr := Z (only parsing).

Abbreviation cudaStream_t := Z (only parsing).

(** The memory the calls work on: the buffers in device memory, by base
    address, and the [size_t] cells handed over by pointer. *)
Record Memory : Type := {
  device : gmap Z (list Byte.byte);
  cells : gmap Z Z
}.

(** A piece of device work, as enqueued on a stream. *)
Definition Work : Type := Memory -> Memory.

(** The memory and, for every stream, the work enqueued on it and not
    yet executed, oldest first. *)
Record World : Type := {
  mem : Memory;
  streams : gmap Z (list Work)
}.

Definition pending (W : World) (stream : cudaStream_t) : list Work :=
  default [] (streams W !! stream).

(** Enqueueing returns at once; the work runs behind all work enqueued
    on the stream before it. *)
Definition enqueue (stream : cudaStream_t) (w : Work) (W : World) : World :=
  {| mem := mem W;
     streams := <[stream := pending W stream ++ [w]]> (streams W) |}.

(** [cudaStreamSynchronize]: the pending work of the stream is executed
    in the order it was enqueued. *)
Definition cudaStreamSynchronize (stream : cudaStream_t) (W : World) : World :=
  {| mem := foldl (fun m w => w m) (mem W) (pending W stream);
     streams := <[stream := []]> (streams W) |}.

Definition write_buffer (p : device_ptr) (data : list Byte.byte) (m : Memory)
  : Memory :=
  {| device := <[p := data]> (device m); cells := cells m |}.

Definition write_cell (p : size_ptr) (v : size_t) (m : Memory) : Memory :=
  {| device := device m; cells := <[p := v]> (cells m) |}.

Definition size_of (data : list Byte.byte) : size_t := Z.of_nat (length data).

(** *** class Compressor, class Decompressor *)

(** The abstract classes declare pure virtual member functions only.  An
    implementation is a type [Self] of object states with one function
    per member function; each takes the object, the arguments of the C++
    signature and the world, and yields the new object, the new world and
    the outcome.  [size_t*] results ([temp_bytes], [out_bytes] of
    [configure]) are returned.  Every member function takes the world:
    an override can read and write memory through pointers its object
    holds, whatever its parameters are. *)
Module Compressor.

Class interface (Self : Type) : Type := {
  (** [void configure(const size_t in_bytes, size_t* temp_bytes,
      size_t* out_bytes)]. *)
  configure :
    Self -> size_t -> World -> Self * World * Result (size_t * size_t);
  (** [void compress_async(const void* in_ptr, const size_t in_bytes,
      void* temp_ptr, const size_t temp_bytes, void* out_ptr,
      size_t* out_bytes, cudaStream_t stream)]. *)
  compress_async :
    Self -> device_ptr -> size_t -> device_ptr -> size_t -> device_ptr ->
    size_ptr -> cudaStream_t -> World -> Self * World * Result unit
}.

End Compressor.

Module Decompressor.

Class interface (Self : Type) : Type := {
  (** [void configure(const void* in_ptr, const size_t in_bytes,
      size_t* temp_bytes, size_t* out_bytes, cudaStream_t stream)]. *)
  configure :
    Self -> device_ptr -> size_t -> cudaStream_t -> World ->
    Self * World * Result (size_t * size_t);
  (** [void decompress_async(const void* in_ptr, const size_t in_bytes,
      void* temp_ptr, const size_t temp_bytes, void* out_ptr,
      const size_t out_bytes, cudaStream_t stream)]. *)
  decompress_async :
    Self -> device_ptr -> size_t -> device_ptr -> size_t -> device_ptr ->
    size_t -> cudaStream_t -> World -> Self * World * Result unit
}.

End Decompressor.

(** *** The contract of the implementations *)

(** Modelled from the spec: the concrete codec behind an instance.  The
    header declares the member functions of [Compressor] and
    [Decompressor] pure virtual, and no implementation is among the
    sources; the spec treats the codec as an external collaborator of
    this layer.  [sizes] is the sizing of
    section 4.3, a function of the algorithm parameters and the input
    size that yields the required workspace size and the maximum output
    size, or nothing for an invalid input size; [encode] produces the
    self-describing compressed stream; [read_metadata] is what
    [Decompressor::configure] reads from the head of a compressed stream
    (required workspace size and decompressed size), nothing when the
    input is too small or its format tag is not recognised; [decode]
    decompresses. *)
Record Codec (Params : Type) : Type := {
  sizes : Params -> size_t -> option (size_t * size_t);
  encode : Params -> list Byte.byte -> list Byte.byte;
  read_metadata : list Byte.byte -> option (size_t * size_t);
  decode : list Byte.byte -> option (list Byte.byte)
}.
Arguments sizes {Params} _ _ _.
Arguments encode {Params} _ _ _.
Arguments read_metadata {Params} _ _.
Arguments decode {Params} _ _.

(** Modelled from the spec: the state machine of an instance of a
    concrete compressor or decompressor (section 4.4; the header holds no
    implementation), [Created -> Configured -> (Configured | Executed)];
    [Configured] remembers the sizes of the most recent [configure] and
    the input size they are valid for. *)
Inductive Phase : Type :=
| Created
| Configured (in_bytes temp_bytes out_bytes : size_t)
| Executed.

(** Modelled from the spec: the data members of a concrete compressor
    or decompressor, which the header does not declare; an instance holds
    its algorithm parameters and owns no device memory (section 3). *)
Record Instance (Params : Type) : Type := {
  params : Params;
  phase : Phase
}.
Arguments params {Params} _.
Arguments phase {Params} _.

Section Contract.
Context {codes : nvcomp_h}.
Context {Params : Type}.
Variable codec : Codec Params.

(** Modelled from the spec: the Failure Objects of the status kinds
    "invalid argument" and "corrupt/unrecognized input" (section 7), as
    the implementations that are not among the sources raise them. *)
Definition invalid_argument (msg : string) : NVCompException :=
  NVCompException_new nvcompErrorInvalidValue msg.

Definition corrupt_input (msg : string) : NVCompException :=
  NVCompException_new nvcompErrorCannotDecompress msg.

(** A transition of the state machine: the parameters stay. *)
Definition enter {P : Type} (self : Instance P) (ph : Phase) : Instance P :=
  {| params := params self; phase := ph |}.

(** Modelled from the spec: [Compressor::configure] of a concrete
    compressor (pure virtual in the header; section 4.3, 1), a function
    of the input size and the algorithm parameters that raises on an
    invalid input size. *)
Definition compressor_configure (self : Instance Params) (in_bytes : size_t)
  : Instance Params * Result (size_t * size_t) :=
  match sizes codec (params self) in_bytes with
  | Some (temp_bytes, out_bytes) =>
      (enter self (Configured in_bytes temp_bytes out_bytes),
       Return (temp_bytes, out_bytes))
  | None => (self, Throw (invalid_argument "invalid input size"))
  end.

(** Modelled from the spec: the device work a concrete compressor
    launches (no kernel is among the sources).  It reads
    the input when it runs, writes the compressed stream to the output
    buffer and its size to the cell [out_bytes] points to; it writes
    nothing when the input is not there or the output does not fit the
    capacity. *)
Definition compress_work (p : Params) (in_ptr : device_ptr) (in_bytes : size_t)
    (out_ptr : device_ptr) (out_bytes : size_ptr) (capacity : size_t) : Work :=
  fun m =>
    match device m !! in_ptr with
    | Some data =>
        if size_of data <? in_bytes then m
        else
          let out := encode codec p (take (Z.to_nat in_bytes) data) in
          if capacity <? size_of out then m
          else write_cell out_bytes (size_of out) (write_buffer out_ptr out m)
    | None => m
    end.

(** Modelled from the spec: [Compressor::compress_async] of a concrete
    compressor (pure virtual in the header; section 4.3, 2, and the
    header's comment on [out_bytes]).  It is valid from [Configured] only
    and for the input size that was configured; [temp_bytes] must reach
    the required workspace size; the cell behind [out_bytes] holds the
    capacity of the output buffer on entry, which must reach the maximum
    output size.  A violation raises "invalid argument" and enqueues
    nothing; otherwise the work is enqueued on the stream and the call
    returns.  The model stops at these argument checks: the launch
    itself is taken to succeed, so the raise on a launch the stream
    rejects and the blocking write of a pageable [out_bytes] are not part
    of it. *)
Definition compressor_compress_async (self : Instance Params)
    (in_ptr : device_ptr) (in_bytes : size_t)
    (temp_ptr : device_ptr) (temp_bytes : size_t)
    (out_ptr : device_ptr) (out_bytes : size_ptr)
    (stream : cudaStream_t) (W : World)
  : Instance Params * World * Result unit :=
  match phase self with
  | Configured n required_temp max_out =>
      if negb (in_bytes =? n)
      then (self, W, Throw (invalid_argument "input size was not configured"))
      else if temp_bytes <? required_temp
      then (self, W, Throw (invalid_argument "workspace too small"))
      else
        match cells (mem W) !! out_bytes with
        | None => (self, W, Throw (invalid_argument "null output size"))
        | Some capacity =>
            if capacity <? max_out
            then (self, W, Throw (invalid_argument "output buffer too small"))
            else
              (enter self Executed,
               enqueue stream
                 (compress_work (params self) in_ptr in_bytes out_ptr out_bytes
                                capacity) W,
               Return tt)
        end
  | _ => (self, W, Throw (invalid_argument "not configured"))
  end.

(** Modelled from the spec: [Decompressor::configure] of a concrete
    decompressor (pure virtual in the header; section 4.4, 1).  It waits
    for the work enqueued on the stream before, reads the
    metadata at the head of the input and raises when the input is not
    there, is too small or is not recognised. *)
Definition decompressor_configure (self : Instance Params)
    (in_ptr : device_ptr) (in_bytes : size_t) (stream : cudaStream_t) (W : World)
  : Instance Params * World * Result (size_t * size_t) :=
  let W' := cudaStreamSynchronize stream W in
  match device (mem W') !! in_ptr with
  | Some data =>
      if size_of data <? in_bytes
      then (self, W', Throw (invalid_argument "input buffer too small"))
      else
        match read_metadata codec (take (Z.to_nat in_bytes) data) with
        | Some (temp_bytes, out_bytes) =>
            (enter self (Configured in_bytes temp_bytes out_bytes), W',
             Return (temp_bytes, out_bytes))
        | None => (self, W', Throw (corrupt_input "unrecognized input"))
        end
  | None => (self, W', Throw (invalid_argument "null input"))
  end.

(** Modelled from the spec: the device work a concrete decompressor
    launches (no kernel is among the sources); it writes the output
    buffer and nothing else. *)
Definition decompress_work (in_ptr : device_ptr) (in_bytes : size_t)
    (out_ptr : device_ptr) (out_bytes : size_t) : Work :=
  fun m =>
    match device m !! in_ptr with
    | Some data =>
        match decode codec (take (Z.to_nat in_bytes) data) with
        | Some out => if out_bytes <? size_of out then m else write_buffer out_ptr out m
        | None => m
        end
    | None => m
    end.

(** Modelled from the spec: [Decompressor::decompress_async] of a
    concrete decompressor (pure virtual in the header; section 4.4, 2);
    its preconditions mirror the compressor's, and [out_bytes] is a
    value: the capacity of the output buffer, which must reach the size
    [configure] reported.  As for the compressor, the model stops at the
    argument checks and takes the launch to succeed. *)
Definition decompressor_decompress_async (self : Instance Params)
    (in_ptr : device_ptr) (in_bytes : size_t)
    (temp_ptr : device_ptr) (temp_bytes : size_t)
    (out_ptr : device_ptr) (out_bytes : size_t)
    (stream : cudaStream_t) (W : World)
  : Instance Params * World * Result unit :=
  match phase self with
  | Configured n required_temp out_size =>
      if negb (in_bytes =? n)
      then (self, W, Throw (invalid_argument "input size was not configured"))
      else if temp_bytes <? required_temp
      then (self, W, Throw (invalid_argument "workspace too small"))
      else if out_bytes <? out_size
      then (self, W, Throw (invalid_argument "output buffer too small"))
      else
        (enter self Executed,
         enqueue stream (decompress_work in_ptr in_bytes out_ptr out_bytes) W,
         Return tt)
  | _ => (self, W, Throw (invalid_argument "not configured"))
  end.

(** Modelled from the spec: "the most recent matching [configure]"
    (section 8) of an instance of the implementations above.  The
    instances whose most recent successful [configure] returned the
    required workspace size [required_temp]: the instance that
    [configure] leaves, and every instance reached from it by calls of
    [compress_async] (whatever their outcome) and by calls of [configure]
    that raise. *)
Inductive compressor_configured_with (required_temp : size_t)
  : Instance Params -> Prop :=
| compressor_just_configured (self self' : Instance Params) (n max_out : size_t) :
    compressor_configure self n = (self', Return (required_temp, max_out)) ->
    compressor_configured_with required_temp self'
| compressor_after_execute (self : Instance Params)
    (in_ptr : device_ptr) (in_bytes : size_t) (temp_ptr : device_ptr)
    (temp_bytes : size_t) (out_ptr : device_ptr) (out_bytes : size_ptr)
    (stream : cudaStream_t) (W : World) :
    compressor_configured_with required_temp self ->
    compressor_configured_with required_temp
      (compressor_compress_async self in_ptr in_bytes temp_ptr temp_bytes
         out_ptr out_bytes stream W).1.1
| compressor_after_failed_configure (self self' : Instance Params) (n : size_t)
    (e : NVCompException) :
    compressor_configured_with required_temp self ->
    compressor_configure self n = (self', Throw e) ->
    compressor_configured_with required_temp self'.

Inductive decompressor_configured_with (required_temp : size_t)
  : Instance Params -> Prop :=
| decompressor_just_configured (self self' : Instance Params)
    (in_ptr : device_ptr) (n : size_t) (stream : cudaStream_t) (W W' : World)
    (out_size : size_t) :
    decompressor_configure self in_ptr n stream W
    = (self', W', Return (required_temp, out_size)) ->
    decompressor_configured_with required_temp self'
| decompressor_after_execute (self : Instance Params)
    (in_ptr : device_ptr) (in_bytes : size_t) (temp_ptr : device_ptr)
    (temp_bytes : size_t) (out_ptr : device_ptr) (out_bytes : size_t)
    (stream : cudaStream_t) (W : World) :
    decompressor_configured_with required_temp self ->
    decompressor_configured_with required_temp
      (decompressor_decompress_async self in_ptr in_bytes temp_ptr temp_bytes
         out_ptr out_bytes stream W).1.1
| decompressor_after_failed_configure (self self' : Instance Params)
    (in_ptr : device_ptr) (n : size_t) (stream : cudaStream_t) (W W' : World)
    (e : NVCompException) :
    decompressor_configured_with required_temp self ->
    decompressor_configure self in_ptr n stream W = (self', W', Throw e) ->
    decompressor_configured_with required_temp self'.

(** What an instance keeps of its most recent successful [configure]: it
    is configured with the sizes that call returned, or has executed. *)
Definition remembers (required_temp : size_t) (self : Instance Params) : Prop :=
  (exists n max_out : size_t, phase self = Configured n required_temp max_out) \/
  phase self = Executed.

(** The contract as implementations of the two abstract classes. *)
Definition contract_compressor : Compressor.interface (Instance Params) :=
  {| Compressor.configure := fun self in_bytes W =>
       let '(self', outcome) := compressor_configure self in_bytes in
       (self', W, outcome);
     Compressor.compress_async := compressor_compress_async |}.

Definition contract_decompressor : Decompressor.interface (Instance Params) :=
  {| Decompressor.configure := decompressor_configure;
     Decompressor.decompress_async := decompressor_decompress_async |}.

End Contract.

(** A codec to run the contract on: it stores the input behind a one-byte
    format tag, needs as much workspace as there is input and refuses
    negative sizes. *)
Definition store_codec : Codec unit :=
  {| sizes := fun _ n => if n <? 0 then None else Some (n, n + 1);
     encode := fun _ data => Byte.x01 :: data;
     read_metadata := fun bytes =>
       match bytes with
       | Byte.x01 :: rest => Some (size_of rest, size_of rest)
       | _ => None
       end;
     decode := fun bytes =>
       match bytes with
       | Byte.x01 :: rest => Some rest
       | _ => None
       end |}.

Definition new_instance : Instance unit := {| params := tt; phase := Created |}.

(** A world with one buffer at address [in_ptr], a capacity cell and no
    pending work. *)
Definition sample_world (in_ptr : device_ptr) (data : list Byte.byte)
    (out_bytes : size_ptr) (capacity : size_t) : World :=
  {| mem := {| device := {[ in_ptr := data ]}; cells := {[ out_bytes := capacity ]} |};
     streams := ∅ |}.

(** *** Taking a message apart *)

(** The first [n] characters of [s], and [s] without them. *)
Fixpoint string_take (n : nat) (s : string) : string :=
  match n, s with
  | S n', String c s' => String c (string_take n' s')
  | _, _ => EmptyString
  end.

Fixpoint string_drop (n : nat) (s : string) : string :=
  match n, s with
  | S n', String _ s' => string_drop n' s'
  | _, _ => s
  end.

(** What the constructor of [NVCompException] appends to the caller's
    message. *)
Definition code_suffix (err : nvcompError_t) : string :=
  " : code=" +:+ to_string err +:+ ".".

(** Reads a message of an [NVCompException] apart: the status code
    behind the last ['='], and the text in front of the suffix that the
    constructor writes for that code; nothing if the message does not end
    with such a suffix. *)
Definition parse_what (s : string) : option (string * nvcompError_t) :=
  match code_of_message s with
  | Some err =>
      let n := (String.length s - String.length (code_suffix err))%nat in
      if String.eqb (string_drop n s) (code_suffix err)
      then Some (string_take n s, err)
      else None
  | None => None
  end.

(** *** what() as a caller reads it *)

(** The character NUL. *)
Definition nul : ascii := Ascii.zero.

(** The C string at the head of [s]: [what()] returns a [const char*],
    and who reads it stops at the first NUL. *)
Fixpoint c_str (s : string) : string :=
  match s with
  | EmptyString => EmptyString
  | String c s' => if Ascii.eqb c nul then EmptyString else String c (c_str s')
  end.

(** [e.what()], read as a C string. *)
Definition what_c_str (e : NVCompException) : string := c_str (what e).

(** *** Callers of throwExceptionIfError *)

Section Callers.
Context {codes : nvcomp_h}.

(** The way back from the exception to the status code, as a C entry
    point wrapping the C++ layer does it:
    [try { body; return nvcompSuccess; }
     catch (const NVCompException& e) { return e.get_error(); }]. *)
Definition status_of (body : Result unit) : nvcompError_t :=
  match body with
  | Return _ => nvcompSuccess
  | Throw e => get_error e
  end.

(** A sequence of statements
    [throwExceptionIfError(err1, msg1); throwExceptionIfError(err2, msg2); ...]. *)
Fixpoint check_all (checks : list (nvcompError_t * string)) : Result unit :=
  match checks with
  | [] => Return tt
  | (err, msg) :: rest =>
      bind (throwExceptionIfError err msg) (fun _ => check_all rest)
  end.

(** Is the status of a check a failure? *)
Definition is_failure (check : nvcompError_t * string) : bool :=
  negb (check.1 =? nvcompSuccess).

End Callers.

(** *** The tags of getnvcompType *)

(** The alias [getnvcompType] tests for before it returns the tag. *)
Definition alias_of_tag (P : Platform) (tag : nvcompType_t) : CppType :=
  match tag with
  | NVCOMP_TYPE_CHAR => int8_t P
  | NVCOMP_TYPE_UCHAR => uint8_t P
  | NVCOMP_TYPE_SHORT => int16_t P
  | NVCOMP_TYPE_USHORT => uint16_t P
  | NVCOMP_TYPE_INT => int32_t P
  | NVCOMP_TYPE_UINT => uint32_t P
  | NVCOMP_TYPE_LONGLONG => int64_t P
  | NVCOMP_TYPE_ULONGLONG => uint64_t P
  end.

(** The signedness and width of the alias a tag stands for: [intN_t] is
    signed and [N] bits wide, [uintN_t] unsigned and [N] bits wide. *)
Definition tag_kind (tag : nvcompType_t) : bool * Z :=
  match tag with
  | NVCOMP_TYPE_CHAR => (true, 8)
  | NVCOMP_TYPE_UCHAR => (false, 8)
  | NVCOMP_TYPE_SHORT => (true, 16)
  | NVCOMP_TYPE_USHORT => (false, 16)
  | NVCOMP_TYPE_INT => (true, 32)
  | NVCOMP_TYPE_UINT => (false, 32)
  | NVCOMP_TYPE_LONGLONG => (true, 64)
  | NVCOMP_TYPE_ULONGLONG => (false, 64)
  end.

(** The ten standard integer types. *)
Definition standard_integer_types : list CppType :=
  [t_signed_char; t_unsigned_char; t_short; t_unsigned_short; t_int;
   t_unsigned_int; t_long; t_unsigned_long; t_long_long; t_unsigned_long_long].

(** Is [T] a signed integer type, and how many of the types in a list
    are. *)
Definition is_signed (P : Platform) (T : CppType) : bool :=
  match integer_kind P T with
  | Some (signed, _) => signed
  | None => false
  end.

Fixpoint count_signed (P : Platform) (l : list CppType) : nat :=
  match l with
  | [] => 0
  | T :: l' => (if is_signed P T then 1 else 0) + count_signed P l'
  end.

(** A platform whose [<cstdint>] does not conform: both 8-bit aliases
    name plain [char]. *)
Definition char_aliases_platform : Platform :=
  {| bool_bits := 8; char_is_signed := true;
     short_bits := 16; int_bits := 32; long_bits := 64; long_long_bits := 64;
     int8_t := t_char; uint8_t := t_char;
     int16_t := t_short; uint16_t := t_unsigned_short;
     int32_t := t_int; uint32_t := t_unsigned_int;
     int64_t := t_long; uint64_t := t_unsigned_long |}.

(** ** Part II: properties *)

(** *** Strings *)

Lemma append_nil_l (s : string) : EmptyString +:+ s = s.
Proof. reflexivity. Qed.

Lemma append_cons (x : ascii) (a b : string) :
  String x a +:+ b = String x (a +:+ b).
Proof. reflexivity. Qed.

Lemma append_nil_r (s : string) : s +:+ EmptyString = s.
Proof.
  induction s as [|x s IH]; [reflexivity |]. now rewrite append_cons, IH.
Qed.

Lemma append_assoc (a b c : string) : (a +:+ b) +:+ c = a +:+ (b +:+ c).
Proof.
  induction a as [|x a IH]; [reflexivity |]. now rewrite !append_cons, IH.
Qed.

Ltac simpl_append := rewrite ?append_cons, ?append_nil_l in *.

Lemma all_digits_app (a b : string) :
  all_digits (a +:+ b) = all_digits a && all_digits b.
Proof.
  induction a as [|x a IH]; [reflexivity |].
  rewrite append_cons. simpl. now rewrite IH, andb_assoc.
Qed.

Lemma horner_app (a b : string) (acc : Z) :
  horner (a +:+ b) acc = horner b (horner a acc).
Proof.
  revert acc. induction a as [|x a IH]; intros acc; [reflexivity |].
  rewrite append_cons. simpl. apply IH.
Qed.

Lemma occurs_app (c : ascii) (a b : string) :
  occurs c (a +:+ b) = occurs c a || occurs c b.
Proof.
  induction a as [|x a IH]; [reflexivity |].
  rewrite append_cons. simpl. now rewrite IH, orb_assoc.
Qed.

Lemma after_last_app (c : ascii) (p t : string) :
  occurs c t = false -> after_last c (p +:+ String c t) = Some t.
Proof.
  intros Hno.
  assert (Hbase : after_last c (String c t) = Some t).
  { simpl. rewrite Ascii.eqb_refl.
    enough (after_last c t = None) as -> by reflexivity.
    clear -Hno. induction t as [|y t IH]; simpl in *; [reflexivity |].
    apply orb_false_iff in Hno as [Hy Ht]. now rewrite (IH Ht), Hy. }
  induction p as [|x p IH]; [exact Hbase |].
  rewrite append_cons. cbn [after_last]. now rewrite IH.
Qed.

(** *** Decimal rendering *)

Lemma digit_char_spec (d : Z) :
  0 <= d < 10 ->
  is_digit (digit_char d) = true /\ digit_val (digit_char d) = d /\
  (digit_char d = "0"%char -> d = 0).
Proof.
  intros Hd.
  assert (d = 0 \/ d = 1 \/ d = 2 \/ d = 3 \/ d = 4 \/ d = 5 \/ d = 6 \/
          d = 7 \/ d = 8 \/ d = 9) as Hcases by lia.
  repeat (destruct Hcases as [-> | Hcases];
          [repeat split; try reflexivity; discriminate |]).
  subst d. repeat split; try reflexivity; discriminate.
Qed.

Lemma is_digit_not_special (c : ascii) :
  is_digit c = true ->
  Ascii.eqb c "="%char = false /\ Ascii.eqb c "-"%char = false /\
  Ascii.eqb c "."%char = false.
Proof.
  intros Hc. repeat split; apply Ascii.eqb_neq; intros ->; discriminate Hc.
Qed.

Lemma all_digits_occurs (c : ascii) (ds : string) :
  is_digit c = false -> all_digits ds = true -> occurs c ds = false.
Proof.
  intros Hc. induction ds as [|x ds IH]; simpl; [reflexivity |].
  intros [Hx Hds]%andb_true_iff. rewrite (IH Hds), orb_false_r.
  apply Ascii.eqb_neq. intros ->. congruence.
Qed.

(** The loop writes digits only, at least one, in canonical form, and
    they denote [val] when the fuel covers the binary length of [val]. *)
Lemma to_chars_10_spec (fuel : nat) :
  forall (val : Z) (acc : string),
    0 <= val < 2 ^ Z.of_nat fuel ->
    (0 < fuel)%nat ->
    exists ds : string,
      to_chars_10 fuel val acc = ds +:+ acc /\
      all_digits ds = true /\
      horner ds 0 = val /\
      canonical_digits ds = true /\
      (val <> 0 -> exists c ds', ds = String c ds' /\ Ascii.eqb c "0"%char = false).
Proof.
  induction fuel as [|fuel IH]; intros val acc Hval Hfuel; [lia |].
  cbn [to_chars_10].
  destruct (digit_char_spec (val mod 10)) as (Hdig & Hdv & Hzero);
    [apply Z.mod_pos_bound; lia |].
  destruct (Z.ltb_spec val 10) as [Hlt | Hge].
  - exists (String (digit_char (val mod 10)) EmptyString).
    rewrite Z.mod_small in * by lia.
    rewrite append_cons, append_nil_l.
    split; [reflexivity |].
    split; [simpl; now rewrite Hdig |].
    split; [simpl; lia |].
    split; [exact Hdig |].
    intros Hnz. eexists _, _. split; [reflexivity |].
      apply Ascii.eqb_neq. intros Heq. apply Hnz, Hzero, Heq.
  - assert (Hdiv : 1 <= val / 10) by (apply Z.div_le_lower_bound; lia).
    assert (Hfuel' : (0 < fuel)%nat).
    { destruct fuel; [|lia]. simpl in Hval. lia. }
    assert (Hbound : 0 <= val / 10 < 2 ^ Z.of_nat fuel).
    { split; [lia |].
      rewrite Nat2Z.inj_succ, Z.pow_succ_r in Hval by lia.
      apply Z.div_lt_upper_bound; lia. }
    destruct (IH (val / 10) (String (digit_char (val mod 10)) acc) Hbound Hfuel')
      as (ds & Heq & Hall & Hval' & Hcan & Hhead).
    exists (ds +:+ String (digit_char (val mod 10)) EmptyString).
    rewrite Heq, append_assoc. split; [reflexivity |].
    destruct Hhead as (c & ds' & -> & Hc); [lia |].
    split; [| split; [| split]].
    + rewrite all_digits_app, Hall. simpl. now rewrite Hdig.
    + rewrite horner_app, Hval'. simpl. rewrite Hdv.
      pose proof (Z.div_mod val 10). lia.
    + simpl in Hall. apply andb_true_iff in Hall as [Hc' Hall].
      rewrite append_cons. 
      destruct ds' as [|c' ds']; simpl_append; simpl;
        rewrite Hc', Hc; simpl; [now rewrite Hdig |].
      rewrite all_digits_app. simpl in Hall. apply andb_true_iff in Hall as [-> ->].
      simpl. now rewrite Hdig.
    + intros _. eexists _, _. split; [reflexivity | exact Hc].
Qed.

Lemma to_chars_len_bound (uval : Z) :
  0 <= uval -> 0 <= uval < 2 ^ Z.of_nat (to_chars_len uval).
Proof.
  intros H0. split; [assumption |]. unfold to_chars_len.
  rewrite Nat2Z.inj_succ, Z2Nat.id by apply Z.log2_nonneg.
  destruct (Z.eq_dec uval 0) as [-> | Hnz]; [reflexivity |].
  apply Z.log2_spec. lia.
Qed.

(** [to_string] writes the decimal rendering of its argument. *)
Lemma to_string_decimal (val : Z) : is_decimal_rendering (to_string val) val.
Proof.
  unfold to_string, is_decimal_rendering.
  set (uval := if val <? 0 then - val else val).
  assert (Huval : uval = Z.abs val) by (unfold uval; destruct (Z.ltb_spec val 0); lia).
  destruct (to_chars_10_spec (to_chars_len uval) uval EmptyString)
    as (ds & Heq & Hall & Hval & Hcan & _).
  { apply to_chars_len_bound. lia. }
  { unfold to_chars_len. lia. }
  exists ds. rewrite Heq.
  rewrite append_nil_r. repeat split; auto. now rewrite <- Huval.
Qed.

Lemma canonical_digits_all (ds : string) :
  canonical_digits ds = true ->
  exists c ds', ds = String c ds' /\ is_digit c = true /\ all_digits ds' = true.
Proof.
  destruct ds as [|c [|c' ds']]; simpl; [discriminate | |].
  - intros Hc. now exists c, EmptyString.
  - intros [[Hc _]%andb_true_iff Hds]%andb_true_iff. now exists c, (String c' ds').
Qed.

Lemma read_digits_app (ds rest : string) (acc : Z) :
  all_digits ds = true -> stops_numeral rest ->
  read_digits (ds +:+ rest) acc = (horner ds acc, rest).
Proof.
  intros Hds Hrest. revert acc Hds.
  induction ds as [|c ds IH]; intros acc Hds.
  - rewrite append_nil_l. destruct rest as [|c r]; simpl in *; [reflexivity |].
    now rewrite Hrest.
  - rewrite append_cons. simpl in *.
    apply andb_true_iff in Hds as [-> Hds]. now apply IH.
Qed.

(** Reading a rendered integer gives the integer back, whatever follows
    it, as long as no digit follows. *)
Lemma read_int_to_string (val : Z) (rest : string) :
  stops_numeral rest -> read_int (to_string val +:+ rest) = Some (val, rest).
Proof.
  intros Hrest.
  destruct (to_string_decimal val) as (ds & Hcan & Hval & ->).
  destruct (canonical_digits_all ds Hcan) as (c & ds' & -> & Hc & Hds').
  assert (Hall : all_digits (String c ds') = true) by (simpl; now rewrite Hc).
  destruct (is_digit_not_special c Hc) as (_ & Hminus & _).
  unfold read_int. destruct (Z.ltb_spec val 0) as [Hneg | Hpos].
  - rewrite !append_cons. cbv beta iota. rewrite Ascii.eqb_refl, Hc.
    rewrite <- append_cons, (read_digits_app _ _ _ Hall Hrest), Hval.
    do 2 f_equal. lia.
  - rewrite append_cons. cbv beta iota. rewrite Hminus, Hc.
    rewrite <- append_cons, (read_digits_app _ _ _ Hall Hrest), Hval.
    do 2 f_equal. lia.
Qed.

Lemma to_string_no_equals (val : Z) : occurs "="%char (to_string val) = false.
Proof.
  destruct (to_string_decimal val) as (ds & Hcan & _ & ->).
  destruct (canonical_digits_all ds Hcan) as (c & ds' & -> & Hc & Hds').
  assert (Hall : all_digits (String c ds') = true) by (simpl; now rewrite Hc).
  pose proof (all_digits_occurs "="%char _ eq_refl Hall) as Hocc.
  destruct (val <? 0); [simpl in *; exact Hocc | exact Hocc].
Qed.

(** [to_string] is injective: different codes have different renderings. *)
Lemma to_string_inj (a b : Z) : to_string a = to_string b -> a = b.
Proof.
  intros Heq.
  pose proof (read_int_to_string a EmptyString I) as Ha.
  pose proof (read_int_to_string b EmptyString I) as Hb.
  rewrite Heq in Ha. congruence.
Qed.

(** The code can be read back from the message of an exception. *)
Lemma code_of_message_what (err : nvcompError_t) (msg : string) :
  code_of_message (what (NVCompException_new err msg)) = Some err.
Proof.
  unfold code_of_message, NVCompException_new. cbn [what].
  change (msg +:+ " : code=" +:+ to_string err +:+ ".")
    with (msg +:+ (" : code" +:+ String "="%char (to_string err +:+ "."))).
  rewrite <- append_assoc, after_last_app.
  - now rewrite read_int_to_string.
  - rewrite occurs_app, to_string_no_equals. reflexivity.
Qed.

(** *** The decimal rendering is unique *)

Lemma is_digit_range (c : ascii) :
  is_digit c = true -> 0 <= digit_val c < 10.
Proof.
  unfold is_digit, digit_val.
  intros [H1 H2]%andb_true_iff.
  apply N.leb_le in H1, H2. lia.
Qed.

Lemma digit_val_inj (c c' : ascii) :
  digit_val c = digit_val c' -> c = c'.
Proof.
  unfold digit_val. intros H.
  rewrite <- (ascii_N_embedding c), <- (ascii_N_embedding c').
  f_equal. lia.
Qed.

Lemma digit_val_zero (c : ascii) :
  is_digit c = true -> Ascii.eqb c "0"%char = false -> 1 <= digit_val c.
Proof.
  intros Hc Hz. pose proof (is_digit_range c Hc) as Hr.
  destruct (Z.eq_dec (digit_val c) 0) as [H0 | ?]; [| lia].
  apply Ascii.eqb_neq in Hz. exfalso. apply Hz.
  apply digit_val_inj. rewrite H0. reflexivity.
Qed.

Lemma pow10_pos (s : string) : 0 < pow10 s.
Proof. unfold pow10. apply Z.pow_pos_nonneg; lia. Qed.

Lemma pow10_cons (c : ascii) (s : string) : pow10 (String c s) = 10 * pow10 s.
Proof.
  unfold pow10. cbn [String.length].
  rewrite Nat2Z.inj_succ, Z.pow_succ_r by lia. reflexivity.
Qed.

(** The value of a digit string: positional, and below the power of ten
    of its length. *)
Lemma horner_value (ds : string) :
  all_digits ds = true ->
  forall acc : Z,
    horner ds acc = acc * pow10 ds + horner ds 0 /\ 0 <= horner ds 0 < pow10 ds.
Proof.
  induction ds as [|c ds IH]; intros Hds acc.
  - cbn. unfold pow10. cbn. lia.
  - cbn in Hds. apply andb_true_iff in Hds as [Hc Hds].
    pose proof (is_digit_range c Hc) as Hr.
    cbn [horner]. rewrite pow10_cons.
    destruct (IH Hds (10 * acc + digit_val c)) as [-> Hb].
    destruct (IH Hds (10 * 0 + digit_val c)) as [-> _].
    pose proof (pow10_pos ds). split; nia.
Qed.

(** Digit strings of equal length and equal value are equal. *)
Lemma horner_inj_length (a : string) :
  forall b : string,
    all_digits a = true -> all_digits b = true ->
    String.length a = String.length b ->
    horner a 0 = horner b 0 -> a = b.
Proof.
  induction a as [|c a IH]; intros [|c' b] Ha Hb Hlen Hval;
    try discriminate; [reflexivity |].
  cbn in Ha, Hb. apply andb_true_iff in Ha as [Hc Ha], Hb as [Hc' Hb].
  injection Hlen as Hlen.
  cbn [horner] in Hval.
  destruct (horner_value a Ha (10 * 0 + digit_val c)) as [Ea Ba].
  destruct (horner_value b Hb (10 * 0 + digit_val c')) as [Eb Bb].
  rewrite Ea, Eb in Hval.
  assert (Hpow : pow10 a = pow10 b) by (unfold pow10; now rewrite Hlen).
  rewrite Hpow in *.
  pose proof (is_digit_range c Hc). pose proof (is_digit_range c' Hc').
  pose proof (pow10_pos b).
  assert (Hd : digit_val c = digit_val c') by nia.
  f_equal; [now apply digit_val_inj |].
  apply IH; auto. nia.
Qed.

(** A canonical digit string has as many digits as its value needs: the
    value is at least the power of ten of the digits behind the first,
    unless the string is the single digit 0. *)
Lemma canonical_digits_value (c : ascii) (ds : string) :
  canonical_digits (String c ds) = true ->
  (ds = EmptyString /\ horner (String c ds) 0 = digit_val c /\ is_digit c = true) \/
  (all_digits (String c ds) = true /\ pow10 ds <= horner (String c ds) 0).
Proof.
  destruct ds as [|c' ds'].
  - cbn. intros Hc. left. repeat split; auto.
  - cbn [canonical_digits].
    intros [[Hc Hz]%andb_true_iff Hds]%andb_true_iff.
    apply negb_true_iff in Hz. right.
    split; [cbn [all_digits]; now rewrite Hc |].
    change (horner (String c (String c' ds')) 0)
      with (horner (String c' ds') (10 * 0 + digit_val c)).
    destruct (horner_value (String c' ds') Hds (10 * 0 + digit_val c)) as [-> Hb].
    pose proof (digit_val_zero c Hc Hz). pose proof (pow10_pos (String c' ds')). nia.
Qed.

Lemma pow10_mono (a b : string) :
  (String.length a < String.length b)%nat -> 10 * pow10 a <= pow10 b.
Proof.
  intros Hlt. unfold pow10.
  rewrite <- Z.pow_succ_r by lia. apply Z.pow_le_mono_r; lia.
Qed.

(** Canonical digit strings of equal value have equal length. *)
Lemma canonical_digits_length (a b : string) :
  canonical_digits a = true -> canonical_digits b = true ->
  horner a 0 = horner b 0 -> ~ (String.length a < String.length b)%nat.
Proof.
  intros Ha Hb Hval Hlt.
  destruct (canonical_digits_all a Ha) as (ca & a' & -> & Hca & Ha').
  destruct (canonical_digits_all b Hb) as (cb & b' & -> & Hcb & Hb').
  assert (Hall : all_digits (String ca a') = true) by (cbn; now rewrite Hca).
  destruct (horner_value _ Hall 0) as [_ Hupper].
  cbn [String.length] in Hlt. apply Nat.succ_lt_mono in Hlt.
  destruct (canonical_digits_value cb b' Hb) as [(-> & _ & _) | [_ Hlower]].
  - cbn in Hlt. lia.
  - rewrite pow10_cons in Hupper. pose proof (pow10_mono a' b' Hlt). lia.
Qed.

Lemma canonical_digits_unique (a b : string) :
  canonical_digits a = true -> canonical_digits b = true ->
  horner a 0 = horner b 0 -> a = b.
Proof.
  intros Ha Hb Hval.
  destruct (canonical_digits_all a Ha) as (ca & a' & Ea & Hca & Ha').
  destruct (canonical_digits_all b Hb) as (cb & b' & Eb & Hcb & Hb').
  apply horner_inj_length; auto.
  - subst a. cbn. now rewrite Hca.
  - subst b. cbn. now rewrite Hcb.
  - pose proof (canonical_digits_length a b Ha Hb Hval).
    pose proof (canonical_digits_length b a Hb Ha (eq_sym Hval)). lia.
Qed.

(** A string renders one integer only, and an integer has one
    rendering only: [to_string val] is the decimal rendering of [val]. *)
Lemma is_decimal_rendering_unique (s s' : string) (z z' : Z) :
  is_decimal_rendering s z -> is_decimal_rendering s' z' ->
  (s = s' <-> z = z').
Proof.
  intros (ds & Hcan & Hval & Hs) (ds' & Hcan' & Hval' & Hs').
  destruct (canonical_digits_all ds Hcan) as (c & r & Eds & Hc & _).
  destruct (canonical_digits_all ds' Hcan') as (c' & r' & Eds' & Hc' & _).
  destruct (is_digit_not_special c Hc) as (_ & Hm & _).
  destruct (is_digit_not_special c' Hc') as (_ & Hm' & _).
  apply Ascii.eqb_neq in Hm, Hm'.
  split.
  - intros Heq. subst s s'.
    destruct (Z.ltb_spec z 0), (Z.ltb_spec z' 0); subst ds ds'.
    + injection Heq as Heq Heq'. subst. rewrite Hval in Hval'. lia.
    + injection Heq as Heq Heq'. congruence.
    + injection Heq as Heq Heq'. congruence.
    + rewrite Heq, Hval' in Hval. lia.
  - intros <-. rewrite <- Hval' in Hval.
    rewrite (canonical_digits_unique ds ds' Hcan Hcan' Hval) in Hs.
    congruence.
Qed.

Lemma to_string_unique (val : Z) (s : string) :
  is_decimal_rendering s val <-> s = to_string val.
Proof.
  split.
  - intros Hs.
    now apply (is_decimal_rendering_unique s (to_string val) val val Hs
                 (to_string_decimal val)).
  - intros ->. apply to_string_decimal.
Qed.

(** *** std::to_string and the decimal printer of the standard library *)

(** The printer [NilZero.string_of_int (Z.to_int z)] of Rocq's standard
    library is a second, independent definition of the decimal rendering;
    [to_string] computes the same string. *)

Lemma string_of_uint_digits (d : Decimal.uint) :
  all_digits (NilEmpty.string_of_uint d) = true.
Proof. induction d; cbn; auto. Qed.

Lemma horner_of_uint_acc (d : Decimal.uint) :
  forall acc : positive,
    horner (NilEmpty.string_of_uint d) (Z.pos acc) = Z.pos (Pos.of_uint_acc d acc).
Proof.
  induction d; intros acc; cbn [NilEmpty.string_of_uint horner Pos.of_uint_acc];
    [reflexivity | ..];
    rewrite <- IHd; f_equal; unfold digit_val; cbn; lia.
Qed.

Lemma horner_of_uint (d : Decimal.uint) :
  horner (NilEmpty.string_of_uint d) 0 = Z.of_N (Pos.of_uint d).
Proof.
  induction d; cbn [NilEmpty.string_of_uint horner Pos.of_uint];
    [reflexivity | exact IHd | ..];
    cbn [Z.of_N]; rewrite <- horner_of_uint_acc; reflexivity.
Qed.

(** The digits of a positive number start with a digit that is not 0. *)
Lemma to_uint_head (p : positive) :
  canonical_digits (NilEmpty.string_of_uint (Pos.to_uint p)) = true.
Proof.
  pose proof (Unsigned.to_of (Pos.to_uint p)) as Hnorm.
  rewrite Unsigned.of_to in Hnorm. cbn [N.to_uint] in Hnorm.
  pose proof (Unsigned.to_uint_nonzero p) as Hnz.
  pose proof (string_of_uint_digits (Pos.to_uint p)) as Hall.
  destruct (Pos.to_uint p) as [|d|d|d|d|d|d|d|d|d|d] eqn:E.
  - discriminate Hnorm.
  - exfalso. unfold Decimal.unorm in Hnorm. cbn [Decimal.nzhead] in Hnorm.
    pose proof (nb_digits_nzhead d) as Hlen.
    destruct (Decimal.nzhead d) eqn:Ehead; try discriminate Hnorm;
      injection Hnorm as Hd; subst d;
      [apply Hnz; reflexivity | cbn in Hlen; lia].
  - cbn in *. now destruct (NilEmpty.string_of_uint d).
  - cbn in *. now destruct (NilEmpty.string_of_uint d).
  - cbn in *. now destruct (NilEmpty.string_of_uint d).
  - cbn in *. now destruct (NilEmpty.string_of_uint d).
  - cbn in *. now destruct (NilEmpty.string_of_uint d).
  - cbn in *. now destruct (NilEmpty.string_of_uint d).
  - cbn in *. now destruct (NilEmpty.string_of_uint d).
  - cbn in *. now destruct (NilEmpty.string_of_uint d).
  - cbn in *. now destruct (NilEmpty.string_of_uint d).
Qed.

Lemma string_of_uint_to_uint (p : positive) :
  NilZero.string_of_uint (Pos.to_uint p) = NilEmpty.string_of_uint (Pos.to_uint p).
Proof.
  pose proof (Unsigned.to_uint_nonnil p).
  now destruct (Pos.to_uint p).
Qed.

Lemma printer_decimal (z : Z) :
  is_decimal_rendering (NilZero.string_of_int (Z.to_int z)) z.
Proof.
  destruct z as [|p|p].
  - exists "0"%string. repeat split.
  - exists (NilEmpty.string_of_uint (Pos.to_uint p)).
    split; [apply to_uint_head |]. split.
    + now rewrite horner_of_uint, Unsigned.of_to.
    + cbn. apply string_of_uint_to_uint.
  - exists (NilEmpty.string_of_uint (Pos.to_uint p)).
    split; [apply to_uint_head |]. split.
    + now rewrite horner_of_uint, Unsigned.of_to.
    + cbn. f_equal. apply string_of_uint_to_uint.
Qed.

Lemma to_string_printer (z : Z) :
  to_string z = NilZero.string_of_int (Z.to_int z).
Proof. symmetry. apply to_string_unique, printer_decimal. Qed.

(** *** NVCompException *)


(** C10: the stored message is exactly [msg], then [" : code="], then the
    decimal rendering of [err] (the one string that renders [err] is
    [to_string err], which is also what the decimal printer of Rocq's
    standard library prints), then ["."]; so [msg] is a prefix of it;
    and [get_error()] returns the code given to the constructor, whatever
    the message: the object has no operation that changes it, and
    [get_error] is a function of the object alone. *)
Theorem NVCompException_message_format :
  forall (err : nvcompError_t) (msg : string),
    let e := NVCompException_new err msg in
    what e = msg +:+ " : code=" +:+ to_string err +:+ "." /\
    (forall s : string, is_decimal_rendering s err <-> s = to_string err) /\
    to_string err = NilZero.string_of_int (Z.to_int err) /\
    String.prefix msg (what e) = true /\
    get_error e = err /\
    (forall msg' : string, get_error (NVCompException_new err msg') = get_error e).
Proof.
  intros err msg e. split; [reflexivity |].
  split; [intros s; apply to_string_unique |].
  split; [apply to_string_printer |].
  split; [| split; reflexivity].
  subst e. cbn [what NVCompException_new].
  generalize (" : code=" +:+ to_string err +:+ ".") as tail.
  induction msg as [|c msg IH]; intros tail.
  - now destruct tail.
  - rewrite append_cons. simpl. rewrite IH.
    destruct (ascii_dec c c); [reflexivity | contradiction].
Qed.

Example NVCompException_not_supported_message :
  what (NVCompException_new 11 "nvcomp does not support the given type.")
  = "nvcomp does not support the given type. : code=11.".
Proof. reflexivity. Qed.

Example NVCompException_negative_code_message :
  what (NVCompException_new (-7) EmptyString) = " : code=-7." /\
  code_of_message " : code=-7." = Some (-7).
Proof. split; reflexivity. Qed.

(** [to_string] agrees with the decimal printer of the standard library
    of Rocq on the codes of nvcomp and on the extremes of [int]. *)
Example to_string_agrees_with_printer :
  Forall (fun z => to_string z = NilZero.string_of_int (Z.to_int z))
         [0; 10; 11; 12; 1000; 10000; -1; 2147483647; -2147483648].
Proof. repeat constructor. Qed.

(** A message that itself ends like a code does not confuse the reading:
    the code is the integer behind the last ['=']. *)
Example code_of_message_nested :
  code_of_message (what (NVCompException_new 1000 "inner : code=10.")) = Some 1000.
Proof. reflexivity. Qed.

(** *** throwExceptionIfError *)

Section HelpersProperties.
Context {codes : nvcomp_h}.

(** C4: [throwExceptionIfError(err, msg)] throws exactly when [err] is
    not [nvcompSuccess]; the object thrown is the Failure Object built from
    [(err, msg)], so its status code is [err]; for [nvcompSuccess] the call
    returns normally and does nothing else. *)
Theorem throwExceptionIfError_iff :
  forall (err : nvcompError_t) (msg : string),
    (throws (throwExceptionIfError err msg) = true <-> err <> nvcompSuccess) /\
    (err <> nvcompSuccess ->
       throwExceptionIfError err msg = Throw (NVCompException_new err msg)) /\
    (forall e : NVCompException,
       throwExceptionIfError err msg = Throw e -> get_error e = err) /\
    (err = nvcompSuccess -> throwExceptionIfError err msg = Return tt).
Proof.
  intros err msg. unfold throwExceptionIfError.
  destruct (Z.eqb_spec err nvcompSuccess) as [Heq | Hne]; simpl.
  - repeat split; try congruence; try discriminate.
  - repeat split; try congruence; try discriminate.
    intros e [= <-]. reflexivity.
Qed.

End HelpersProperties.

Example throwExceptionIfError_success :
  throwExceptionIfError (codes := nvcomp_h_upstream) 0 "compress" = Return tt.
Proof. reflexivity. Qed.

Example throwExceptionIfError_failure :
  throwExceptionIfError (codes := nvcomp_h_upstream) 10 "compress"
  = Throw {| what := "compress : code=10."; m_err := 10 |}.
Proof. reflexivity. Qed.

(** *** getnvcompType *)

Lemma is_same_spec (T U : CppType) : is_same T U = true <-> T = U.
Proof. unfold is_same. apply bool_decide_eq_true. Qed.

Lemma is_same_refl (T : CppType) : is_same T T = true.
Proof. now apply is_same_spec. Qed.

Lemma is_same_ne (T U : CppType) : T <> U -> is_same T U = false.
Proof. intros Hne. unfold is_same. now apply bool_decide_eq_false. Qed.

Lemma exact_width_spec (P : Platform) (T : CppType) (s : bool) (w : Z) :
  exact_width P T s w = true ->
  is_standard_integer T = true /\ integer_kind P T = Some (s, w).
Proof.
  unfold exact_width. intros [Hstd Hkind]%andb_true_iff.
  split; [assumption |]. now apply bool_decide_eq_true in Hkind.
Qed.

Section TypeDispatchProperties.
Context {codes : nvcomp_h}.
Variable P : Platform.
Hypothesis conforming : cstdint_conforming P = true.

(** The kinds of the eight aliases on a conforming platform. *)
Lemma alias_kinds :
  (integer_kind P (int8_t P) = Some (true, 8) /\
   integer_kind P (uint8_t P) = Some (false, 8) /\
   integer_kind P (int16_t P) = Some (true, 16) /\
   integer_kind P (uint16_t P) = Some (false, 16)) /\
  (integer_kind P (int32_t P) = Some (true, 32) /\
   integer_kind P (uint32_t P) = Some (false, 32) /\
   integer_kind P (int64_t P) = Some (true, 64) /\
   integer_kind P (uint64_t P) = Some (false, 64)).
Proof.
  pose proof conforming as H. unfold cstdint_conforming in H.
  do 7 (apply andb_true_iff in H as [H ?]).
  repeat match goal with
         | Hw : exact_width _ _ _ _ = true |- _ =>
             apply exact_width_spec in Hw as [_ Hw]
         end.
  auto 10.
Qed.

Lemma alias_standard (T : CppType) :
  T ∈ supported_types P -> is_standard_integer T = true.
Proof.
  pose proof conforming as H. unfold cstdint_conforming in H.
  do 7 (apply andb_true_iff in H as [H ?]).
  repeat match goal with
         | Hw : exact_width _ _ _ _ = true |- _ =>
             apply exact_width_spec in Hw as [Hw _]
         end.
  unfold supported_types. rewrite !elem_of_cons, elem_of_nil.
  intros Hin. repeat (destruct Hin as [-> | Hin]; [assumption |]). contradiction.
Qed.

(** Two types of different kind are different types. *)
Lemma is_same_kind_ne (T U : CppType) :
  integer_kind P T <> integer_kind P U -> is_same T U = false.
Proof. intros Hne. apply is_same_ne. congruence. Qed.

(** Decides the tests of [getnvcompType] on an alias: the test against
    the alias itself succeeds, the tests against the aliases before it
    fail because the kinds differ. *)
Ltac same_or_other_kind :=
  destruct alias_kinds as ((? & ? & ? & ?) & (? & ? & ? & ?));
  unfold getnvcompType;
  repeat first
    [ rewrite is_same_refl
    | rewrite is_same_kind_ne by congruence ];
  reflexivity.

Lemma getnvcompType_int8_t : getnvcompType P (int8_t P) = Return NVCOMP_TYPE_CHAR.
Proof. same_or_other_kind. Qed.

Lemma getnvcompType_uint8_t : getnvcompType P (uint8_t P) = Return NVCOMP_TYPE_UCHAR.
Proof. same_or_other_kind. Qed.

Lemma getnvcompType_int16_t : getnvcompType P (int16_t P) = Return NVCOMP_TYPE_SHORT.
Proof. same_or_other_kind. Qed.

Lemma getnvcompType_uint16_t : getnvcompType P (uint16_t P) = Return NVCOMP_TYPE_USHORT.
Proof. same_or_other_kind. Qed.

Lemma getnvcompType_int32_t : getnvcompType P (int32_t P) = Return NVCOMP_TYPE_INT.
Proof. same_or_other_kind. Qed.

Lemma getnvcompType_uint32_t : getnvcompType P (uint32_t P) = Return NVCOMP_TYPE_UINT.
Proof. same_or_other_kind. Qed.

Lemma getnvcompType_int64_t : getnvcompType P (int64_t P) = Return NVCOMP_TYPE_LONGLONG.
Proof. same_or_other_kind. Qed.

Lemma getnvcompType_uint64_t :
  getnvcompType P (uint64_t P) = Return NVCOMP_TYPE_ULONGLONG.
Proof. same_or_other_kind. Qed.

(** On the eight supported types the dispatch returns the eight tags, in
    order. *)
Lemma getnvcompType_supported_types :
  map (getnvcompType P) (supported_types P) = map Return supported_tags.
Proof.
  unfold supported_types, supported_tags. cbn [map].
  now rewrite getnvcompType_int8_t, getnvcompType_uint8_t, getnvcompType_int16_t,
    getnvcompType_uint16_t, getnvcompType_int32_t, getnvcompType_uint32_t,
    getnvcompType_int64_t, getnvcompType_uint64_t.
Qed.

(** The eight aliases name eight different types: no two have the same
    kind. *)
Lemma supported_kind_inj (T U : CppType) :
  T ∈ supported_types P -> U ∈ supported_types P ->
  integer_kind P T = integer_kind P U -> T = U.
Proof.
  destruct alias_kinds as ((? & ? & ? & ?) & (? & ? & ? & ?)).
  unfold supported_types. rewrite !elem_of_cons, !elem_of_nil.
  intros HT HU.
  repeat (destruct HT as [-> | HT]); try contradiction;
    repeat (destruct HU as [-> | HU]); try contradiction;
    intros; first [reflexivity | congruence].
Qed.

Lemma supported_types_NoDup : NoDup (supported_types P).
Proof.
  apply (NoDup_fmap_1 (integer_kind P)).
  destruct alias_kinds as ((H1 & H2 & H3 & H4) & (H5 & H6 & H7 & H8)).
  unfold supported_types. cbn [fmap list_fmap].
  rewrite H1, H2, H3, H4, H5, H6, H7, H8.
  apply (bool_decide_eq_true_1 _). reflexivity.
Qed.

(** A type outside the eight takes the last branch. *)
Lemma getnvcompType_unsupported (T : CppType) :
  T ∉ supported_types P -> getnvcompType P T = Throw unsupported_type.
Proof.
  unfold supported_types. rewrite !not_elem_of_cons.
  intros (? & ? & ? & ? & ? & ? & ? & ? & _).
  unfold getnvcompType. now rewrite !is_same_ne by assumption.
Qed.

(** A tag is returned for the eight types only. *)
Lemma getnvcompType_Return_supported (T : CppType) (tag : nvcompType_t) :
  getnvcompType P T = Return tag -> T ∈ supported_types P.
Proof.
  intros Hret. destruct (decide (T ∈ supported_types P)) as [Hin | Hout];
    [assumption |].
  rewrite (getnvcompType_unsupported T Hout) in Hret. discriminate.
Qed.

(** C2: on the eight supported element types [getnvcompType] returns a
    tag, namely the eight tags in order; the eight types are different
    types and the eight tags are different tags, so the mapping is a
    bijection between them (injective on the supported types, and every
    tag is the image of one); for every other element type it throws the
    Failure Object whose status code is [nvcompErrorNotSupported], and the
    call computes nothing else (its outcome is that exception). *)
Theorem getnvcompType_bijection_or_unsupported :
  map (getnvcompType P) (supported_types P) = map Return supported_tags /\
  NoDup (supported_types P) /\
  NoDup supported_tags /\
  (forall T U : CppType,
      T ∈ supported_types P -> U ∈ supported_types P ->
      getnvcompType P T = getnvcompType P U -> T = U) /\
  (forall tag : nvcompType_t,
      exists T : CppType, T ∈ supported_types P /\ getnvcompType P T = Return tag) /\
  (forall T : CppType,
      T ∉ supported_types P ->
      getnvcompType P T = Throw unsupported_type /\
      get_error unsupported_type = nvcompErrorNotSupported).
Proof.
  split; [apply getnvcompType_supported_types |].
  split; [apply supported_types_NoDup |].
  split; [apply (bool_decide_eq_true_1 _); reflexivity |].
  split; [| split].
  - unfold supported_types. intros T U. rewrite !elem_of_cons, !elem_of_nil.
    intros HT HU.
    repeat (destruct HT as [-> | HT]); try contradiction;
      repeat (destruct HU as [-> | HU]); try contradiction;
      rewrite ?getnvcompType_int8_t, ?getnvcompType_uint8_t,
        ?getnvcompType_int16_t, ?getnvcompType_uint16_t,
        ?getnvcompType_int32_t, ?getnvcompType_uint32_t,
        ?getnvcompType_int64_t, ?getnvcompType_uint64_t;
      intros Heq; first [reflexivity | discriminate Heq].
  - intros tag. unfold supported_types.
    destruct tag;
      [ exists (int8_t P) | exists (uint8_t P) | exists (int16_t P)
      | exists (uint16_t P) | exists (int32_t P) | exists (uint32_t P)
      | exists (int64_t P) | exists (uint64_t P) ];
      (split; [rewrite !elem_of_cons; tauto |]);
      auto using getnvcompType_int8_t, getnvcompType_uint8_t,
        getnvcompType_int16_t, getnvcompType_uint16_t, getnvcompType_int32_t,
        getnvcompType_uint32_t, getnvcompType_int64_t, getnvcompType_uint64_t.
  - intros T Hout. split; [now apply getnvcompType_unsupported | reflexivity].
Qed.

(** C9: the tag is selected by identity of the type with one of the eight
    aliases, not by width and signedness.  Every integer type that is not
    one of the aliases is refused with the unsupported-type exception,
    whatever its width and signedness; plain [char] and [bool] always are;
    and of two different integer types of the same width and signedness
    (such as [long] and [long long] where both have 64 bits) at least one
    is refused. *)
Theorem getnvcompType_by_identity :
  (forall (T : CppType) (signed : bool) (bits : Z),
      integer_kind P T = Some (signed, bits) ->
      T ∉ supported_types P ->
      getnvcompType P T = Throw unsupported_type) /\
  (integer_kind P t_char = Some (char_is_signed P, 8) /\
   getnvcompType P t_char = Throw unsupported_type) /\
  (integer_kind P t_bool = Some (false, bool_bits P) /\
   getnvcompType P t_bool = Throw unsupported_type) /\
  (forall T U : CppType,
      T <> U -> integer_kind P T = integer_kind P U ->
      getnvcompType P T = Throw unsupported_type \/
      getnvcompType P U = Throw unsupported_type) /\
  (long_bits P = long_long_bits P ->
   getnvcompType P t_long = Throw unsupported_type \/
   getnvcompType P t_long_long = Throw unsupported_type).
Proof.
  assert (Hpair : forall T U : CppType,
      T <> U -> integer_kind P T = integer_kind P U ->
      getnvcompType P T = Throw unsupported_type \/
      getnvcompType P U = Throw unsupported_type).
  { intros T U Hne Hkind.
    destruct (decide (T ∈ supported_types P)) as [HT | HT];
      [| left; now apply getnvcompType_unsupported].
    destruct (decide (U ∈ supported_types P)) as [HU | HU];
      [| right; now apply getnvcompType_unsupported].
    exfalso. apply Hne. now apply supported_kind_inj. }
  assert (Hnonstd : forall T : CppType,
      is_standard_integer T = false -> getnvcompType P T = Throw unsupported_type).
  { intros T Hstd. apply getnvcompType_unsupported. intros Hin.
    apply alias_standard in Hin. congruence. }
  split; [| split; [| split; [| split]]].
  - intros T signed bits _ Hout. now apply getnvcompType_unsupported.
  - split; [reflexivity | now apply Hnonstd].
  - split; [reflexivity | now apply Hnonstd].
  - exact Hpair.
  - intros Hbits. apply Hpair; [discriminate |]. simpl. now rewrite Hbits.
Qed.

End TypeDispatchProperties.

(** The theorems at 64-bit Linux, where [int64_t] is [long]. *)
Lemma getnvcompType_bijection_linux :
  cstdint_conforming linux_x86_64 = true /\
  map (getnvcompType (codes := nvcomp_h_upstream) linux_x86_64)
      [t_signed_char; t_unsigned_char; t_short; t_unsigned_short;
       t_int; t_unsigned_int; t_long; t_unsigned_long]
  = map Return supported_tags.
Proof.
  split; [reflexivity |].
  exact (proj1 (getnvcompType_bijection_or_unsupported
                  (codes := nvcomp_h_upstream) linux_x86_64 eq_refl)).
Defined.

Lemma getnvcompType_by_identity_linux :
  cstdint_conforming linux_x86_64 = true /\
  getnvcompType (codes := nvcomp_h_upstream) linux_x86_64 t_long_long
  = Throw (NVCompException_new 11 "nvcomp does not support the given type.").
Proof.
  split; [reflexivity |].
  refine (proj1 (getnvcompType_by_identity
                   (codes := nvcomp_h_upstream) linux_x86_64 eq_refl)
                t_long_long true 64 eq_refl _).
  unfold supported_types. simpl. rewrite !not_elem_of_cons.
  repeat split; try discriminate. apply not_elem_of_nil.
Defined.

(** [long long] is a 64-bit signed integer on Linux and yet unsupported
    there; on 64-bit Windows it is [long] that is unsupported, and
    [const int32_t] is unsupported everywhere. *)
Example getnvcompType_linux_long_long :
  integer_kind linux_x86_64 t_long_long = integer_kind linux_x86_64 (int64_t linux_x86_64) /\
  getnvcompType (codes := nvcomp_h_upstream) linux_x86_64 t_long
  = Return NVCOMP_TYPE_LONGLONG /\
  throws (getnvcompType (codes := nvcomp_h_upstream) linux_x86_64 t_long_long) = true.
Proof. repeat split. Qed.

Example getnvcompType_windows_long :
  integer_kind windows_x64 t_long = integer_kind windows_x64 (int32_t windows_x64) /\
  getnvcompType (codes := nvcomp_h_upstream) windows_x64 t_long_long
  = Return NVCOMP_TYPE_LONGLONG /\
  throws (getnvcompType (codes := nvcomp_h_upstream) windows_x64 t_long) = true.
Proof. repeat split. Qed.

Example getnvcompType_const_int :
  throws (getnvcompType (codes := nvcomp_h_upstream) linux_x86_64 (t_const t_int)) = true /\
  throws (getnvcompType (codes := nvcomp_h_upstream) linux_x86_64 t_float) = true.
Proof. repeat split. Qed.


(** *** compress_async, decompress_async on the contract *)

Section ContractProperties.
Context {codes : nvcomp_h}.
Context {Params : Type}.
Variable codec : Codec Params.

Lemma compressor_configure_Return (self self' : Instance Params)
    (in_bytes t o : size_t) :
  compressor_configure codec self in_bytes = (self', Return (t, o)) ->
  phase self' = Configured in_bytes t o.
Proof.
  unfold compressor_configure.
  destruct (sizes codec (params self) in_bytes) as [[t' o'] |]; [| discriminate].
  intros [= <- <- <-]. reflexivity.
Qed.

Lemma decompressor_configure_Return (self self' : Instance Params)
    (in_ptr : device_ptr) (in_bytes : size_t) (stream : cudaStream_t)
    (W W' : World) (t o : size_t) :
  decompressor_configure codec self in_ptr in_bytes stream W
  = (self', W', Return (t, o)) ->
  phase self' = Configured in_bytes t o.
Proof.
  unfold decompressor_configure.
  repeat case_match; try discriminate.
  intros [= <- <- <- <-]. reflexivity.
Qed.

Lemma compressor_configured_with_phase (required_temp : size_t)
    (self : Instance Params) :
  compressor_configured_with codec required_temp self -> remembers required_temp self.
Proof.
  induction 1 as [self self' n o Hconf | self in_ptr in_bytes temp_ptr temp_bytes
                  out_ptr out_bytes stream W _ IH | self self' n e _ IH Hconf].
  - left. exists n, o. now apply compressor_configure_Return in Hconf.
  - unfold compressor_compress_async.
    repeat case_match; cbn [fst snd]; auto; now right.
  - unfold compressor_configure in Hconf.
    destruct (sizes codec (params self) n) as [[t o] |]; [discriminate |].
    now injection Hconf as <- _.
Qed.

Lemma decompressor_configured_with_phase (required_temp : size_t)
    (self : Instance Params) :
  decompressor_configured_with codec required_temp self ->
  remembers required_temp self.
Proof.
  induction 1 as [self self' in_ptr n stream W W' o Hconf
                 | self in_ptr in_bytes temp_ptr temp_bytes out_ptr out_bytes
                     stream W _ IH
                 | self self' in_ptr n stream W W' e _ IH Hconf].
  - left. exists n, o. now apply decompressor_configure_Return in Hconf.
  - unfold decompressor_decompress_async.
    repeat case_match; cbn [fst snd]; auto; now right.
  - unfold decompressor_configure in Hconf.
    repeat case_match; try discriminate; now injection Hconf as <- _ _.
Qed.

(** C7: on an instance whose most recent successful [configure] returned
    the required workspace size [required_temp], a [compress_async]
    (respectively [decompress_async]) with a [temp_bytes] strictly below
    that size raises a Failure Object whose status code is the
    invalid-argument code; nothing is enqueued and the instance is left
    as it was. *)
Theorem execute_async_workspace_too_small :
  (forall (self : Instance Params) (required_temp : size_t),
      compressor_configured_with codec required_temp self ->
      forall (in_ptr : device_ptr) (in_bytes : size_t) (temp_ptr : device_ptr)
             (temp_bytes : size_t) (out_ptr : device_ptr) (out_bytes : size_ptr)
             (stream : cudaStream_t) (W : World),
        temp_bytes < required_temp ->
        exists e : NVCompException,
          compressor_compress_async codec self in_ptr in_bytes temp_ptr temp_bytes
            out_ptr out_bytes stream W = (self, W, Throw e) /\
          get_error e = nvcompErrorInvalidValue) /\
  (forall (self : Instance Params) (required_temp : size_t),
      decompressor_configured_with codec required_temp self ->
      forall (in_ptr : device_ptr) (in_bytes : size_t) (temp_ptr : device_ptr)
             (temp_bytes : size_t) (out_ptr : device_ptr) (out_bytes : size_t)
             (stream : cudaStream_t) (W : World),
        temp_bytes < required_temp ->
        exists e : NVCompException,
          decompressor_decompress_async codec self in_ptr in_bytes temp_ptr
            temp_bytes out_ptr out_bytes stream W = (self, W, Throw e) /\
          get_error e = nvcompErrorInvalidValue).
Proof.
  split.
  - intros self t Hlast in_ptr in_bytes temp_ptr temp_bytes out_ptr out_bytes
      stream W Hlt.
    apply compressor_configured_with_phase in Hlast as [(n & o & Hphase) | Hphase];
      unfold compressor_compress_async; rewrite Hphase;
      [| eexists; split; reflexivity].
    destruct (negb (in_bytes =? n)); [eexists; split; reflexivity |].
    destruct (Z.ltb_spec temp_bytes t); [| lia].
    eexists; split; reflexivity.
  - intros self t Hlast in_ptr in_bytes temp_ptr temp_bytes out_ptr out_bytes
      stream W Hlt.
    apply decompressor_configured_with_phase in Hlast as [(n & o & Hphase) | Hphase];
      unfold decompressor_decompress_async; rewrite Hphase;
      [| eexists; split; reflexivity].
    destruct (negb (in_bytes =? n)); [eexists; split; reflexivity |].
    destruct (Z.ltb_spec temp_bytes t); [| lia].
    eexists; split; reflexivity.
Qed.

End ContractProperties.

(** With one byte of workspace less than required the call is refused. *)
Example store_codec_workspace_too_small :
  let W := sample_world 100 [Byte.x0a; Byte.x0b; Byte.x0c] 300 16 in
  let configured := compressor_configure (codes := nvcomp_h_upstream)
                      store_codec new_instance 3 in
  let call := compressor_compress_async (codes := nvcomp_h_upstream) store_codec
                configured.1 100 3 200 2 400 300 0 W in
  call.2 = Throw {| what := "workspace too small : code=10."; m_err := 10 |}.
Proof. reflexivity. Qed.

(** Three bytes of input need three bytes of workspace; two are refused
    with the invalid-argument code. *)
Lemma execute_async_workspace_too_small_store :
  exists e : NVCompException,
    compressor_compress_async (codes := nvcomp_h_upstream) store_codec
      (compressor_configure (codes := nvcomp_h_upstream) store_codec new_instance 3).1
      100 3 200 2 400 300 0
      (sample_world 100 [Byte.x0a; Byte.x0b; Byte.x0c] 300 16)
    = ((compressor_configure (codes := nvcomp_h_upstream) store_codec new_instance 3).1,
       sample_world 100 [Byte.x0a; Byte.x0b; Byte.x0c] 300 16, Throw e) /\
    get_error e = 10.
Proof.
  exact (proj1 (execute_async_workspace_too_small
                  (codes := nvcomp_h_upstream) store_codec)
               _ 3
               (compressor_just_configured store_codec 3 new_instance _ 3 4 eq_refl)
               100 3 200 2 400 300 0
               (sample_world 100 [Byte.x0a; Byte.x0b; Byte.x0c] 300 16)
               eq_refl).
Defined.

(** The decompressor on the storing codec: the stream of four bytes is
    configured with three bytes of workspace, and two are refused with the
    invalid-argument code. *)
Example store_codec_decompress_workspace_too_small :
  let W := sample_world 100 [Byte.x01; Byte.x0a; Byte.x0b; Byte.x0c] 300 16 in
  let configured := decompressor_configure (codes := nvcomp_h_upstream)
                      store_codec new_instance 100 4 0 W in
  let call := decompressor_decompress_async (codes := nvcomp_h_upstream) store_codec
                configured.1.1 100 4 200 2 400 3 0 configured.1.2 in
  configured.2 = Return (3, 3) /\
  call.2 = Throw {| what := "workspace too small : code=10."; m_err := 10 |}.
Proof. split; reflexivity. Qed.

(** ** Part III: further properties of the code *)

(** *** The message of an exception can be taken apart *)

Lemma length_append (a b : string) :
  String.length (a +:+ b) = (String.length a + String.length b)%nat.
Proof.
  induction a as [|c a IH]; [reflexivity |].
  rewrite append_cons. cbn [String.length]. now rewrite IH.
Qed.

Lemma string_take_app (a b : string) : string_take (String.length a) (a +:+ b) = a.
Proof.
  induction a as [|c a IH]; [now destruct b |].
  rewrite append_cons. cbn [String.length string_take]. now rewrite IH.
Qed.

Lemma string_drop_app (a b : string) : string_drop (String.length a) (a +:+ b) = b.
Proof.
  induction a as [|c a IH]; [now destruct b |].
  rewrite append_cons. cbn [String.length string_drop]. exact IH.
Qed.

Lemma string_take_drop (n : nat) (s : string) :
  string_take n s +:+ string_drop n s = s.
Proof.
  revert s. induction n as [|n IH]; intros [|c s]; try reflexivity.
  cbn [string_take string_drop]. now rewrite append_cons, IH.
Qed.

Lemma what_code_suffix (err : nvcompError_t) (msg : string) :
  what (NVCompException_new err msg) = msg +:+ code_suffix err.
Proof. reflexivity. Qed.

Lemma parse_what_sound (s msg : string) (err : nvcompError_t) :
  parse_what s = Some (msg, err) -> s = what (NVCompException_new err msg).
Proof.
  unfold parse_what.
  destruct (code_of_message s) as [err' |]; [| discriminate].
  set (n := (String.length s - String.length (code_suffix err'))%nat).
  destruct (String.eqb_spec (string_drop n s) (code_suffix err')) as [Hdrop | _];
    [| discriminate].
  intros [= <- <-]. rewrite what_code_suffix, <- Hdrop.
  symmetry. apply string_take_drop.
Qed.

Lemma parse_what_complete (err : nvcompError_t) (msg : string) :
  parse_what (what (NVCompException_new err msg)) = Some (msg, err).
Proof.
  unfold parse_what. rewrite code_of_message_what, what_code_suffix.
  rewrite length_append, Nat.add_sub, string_drop_app, string_take_app.
  now rewrite String.eqb_refl.
Qed.

(** The stored message determines both arguments of the constructor. *)
Lemma what_inj (err err' : nvcompError_t) (msg msg' : string) :
  what (NVCompException_new err msg) = what (NVCompException_new err' msg') ->
  err = err' /\ msg = msg'.
Proof.
  intros Heq. pose proof (parse_what_complete err msg) as H.
  rewrite Heq, parse_what_complete in H. now injection H as -> ->.
Qed.

(** Reading up to the first NUL. *)
Lemma c_str_nul_free (s : string) : occurs nul s = false -> c_str s = s.
Proof.
  induction s as [|c s IH]; [reflexivity |]. cbn [occurs c_str].
  intros [Hc Hs]%orb_false_iff. now rewrite Hc, IH.
Qed.

Lemma c_str_app (a b : string) :
  c_str (a +:+ b) = if occurs nul a then c_str a else a +:+ c_str b.
Proof.
  induction a as [|c a IH]; [reflexivity |].
  rewrite append_cons. cbn [c_str occurs].
  destruct (Ascii.eqb c nul); [reflexivity |]. cbn [orb]. rewrite IH.
  destruct (occurs nul a); [reflexivity | now rewrite append_cons].
Qed.

Lemma c_str_length (s : string) :
  occurs nul s = true -> (String.length (c_str s) < String.length s)%nat.
Proof.
  induction s as [|c s IH]; [discriminate |]. cbn [occurs c_str String.length].
  destruct (Ascii.eqb c nul); cbn [orb String.length]; [lia |].
  intros Hs. specialize (IH Hs). lia.
Qed.

Lemma to_string_nul_free (val : Z) : occurs nul (to_string val) = false.
Proof.
  destruct (to_string_decimal val) as (ds & Hcan & _ & ->).
  destruct (canonical_digits_all ds Hcan) as (c & ds' & -> & Hc & Hds').
  assert (Hall : all_digits (String c ds') = true) by (simpl; now rewrite Hc).
  pose proof (all_digits_occurs nul _ eq_refl Hall) as Hocc.
  destruct (val <? 0); [| exact Hocc].
  change (occurs nul (String "-" (String c ds')))
    with (Ascii.eqb "-" nul || occurs nul (String c ds')).
  now rewrite Hocc.
Qed.

Lemma code_suffix_nul_free (err : nvcompError_t) :
  occurs nul (code_suffix err) = false.
Proof.
  unfold code_suffix. now rewrite !occurs_app, to_string_nul_free.
Qed.

(** What a caller reads: the whole stored message when the caller's
    message holds no NUL, the caller's message up to its first NUL
    otherwise. *)
Lemma what_c_str_cases (err : nvcompError_t) (msg : string) :
  what_c_str (NVCompException_new err msg)
  = if occurs nul msg then c_str msg else what (NVCompException_new err msg).
Proof.
  unfold what_c_str. rewrite what_code_suffix, c_str_app.
  destruct (occurs nul msg); [reflexivity |].
  now rewrite (c_str_nul_free _ (code_suffix_nul_free err)).
Qed.

(** X1: [what()], read as the C string it is, determines both arguments
    of the constructor as long as the caller's message holds no NUL:
    [parse_what] reads the caller's message and the status code back from
    it, and two such exceptions with the same [what()] were built from
    the same code and the same message.  A caller's message that holds a
    NUL ends [what()] there: what is read is the caller's message up to
    its first NUL, the same for every status code, while [get_error()]
    still returns the code. *)
Theorem what_c_str_round_trip :
  (forall (err : nvcompError_t) (msg : string),
      occurs nul msg = false ->
      what_c_str (NVCompException_new err msg) = what (NVCompException_new err msg) /\
      parse_what (what_c_str (NVCompException_new err msg)) = Some (msg, err)) /\
  (forall (err err' : nvcompError_t) (msg msg' : string),
      occurs nul msg = false -> occurs nul msg' = false ->
      what_c_str (NVCompException_new err msg)
      = what_c_str (NVCompException_new err' msg') ->
      err = err' /\ msg = msg') /\
  (forall (err : nvcompError_t) (msg : string),
      occurs nul msg = true ->
      what_c_str (NVCompException_new err msg) = c_str msg /\
      (forall err' : nvcompError_t,
          what_c_str (NVCompException_new err' msg)
          = what_c_str (NVCompException_new err msg)) /\
      get_error (NVCompException_new err msg) = err).
Proof.
  split; [| split].
  - intros err msg Hfree. rewrite what_c_str_cases, Hfree.
    split; [reflexivity | apply parse_what_complete].
  - intros err err' msg msg' Hfree Hfree'.
    rewrite !what_c_str_cases, Hfree, Hfree'. apply what_inj.
  - intros err msg Hnul. split; [| split; [| reflexivity]].
    + now rewrite what_c_str_cases, Hnul.
    + intros err'. now rewrite !what_c_str_cases, Hnul.
Qed.

(** A message without NUL is read back whole; behind a NUL the code is
    out of sight, and what is in front of it may even read as another
    code. *)
Lemma what_c_str_round_trip_example :
  occurs nul "compress" = false /\
  parse_what (what_c_str (NVCompException_new 10 "compress")) = Some ("compress", 10).
Proof.
  split; [reflexivity |].
  exact (proj2 (proj1 what_c_str_round_trip 10 "compress" eq_refl)).
Defined.

Example what_c_str_nul :
  let msg := String "a" (String nul (String "b" EmptyString)) in
  let msg' := String "a" (String nul (String "c" EmptyString)) in
  what_c_str (NVCompException_new 10 msg) = "a" /\
  what_c_str (NVCompException_new 11 msg') = "a" /\
  String.length (what (NVCompException_new 10 msg)) = 14%nat /\
  parse_what (what_c_str (NVCompException_new 10
                (" : code=5." +:+ String nul EmptyString))) = Some (EmptyString, 5).
Proof. repeat split. Qed.

Example parse_what_nested :
  parse_what "launch failed : code=1000. : code=10."
  = Some ("launch failed : code=1000.", 10).
Proof. reflexivity. Qed.

Example parse_what_rejects :
  parse_what "code=10." = None /\ parse_what " : code=010." = None /\
  parse_what " : code=10" = None.
Proof. repeat split. Qed.

(** *** The length of the message *)

Lemma to_string_length (val : Z) :
  - 2 ^ 31 <= val < 2 ^ 31 ->
  (1 <= String.length (to_string val) <= 11)%nat.
Proof.
  intros Hrange.
  destruct (to_string_decimal val) as (ds & Hcan & Hval & ->).
  destruct (canonical_digits_all ds Hcan) as (c & ds' & -> & Hc & Hds').
  assert (Hlen : (String.length ds' < 10)%nat).
  { destruct (canonical_digits_value c ds' Hcan) as [(-> & _) | [_ Hlow]];
      [cbn; lia |].
    destruct (Nat.lt_ge_cases (String.length ds') 10) as [? | Hge]; [assumption |].
    exfalso. unfold pow10 in Hlow.
    assert (10 ^ 10 <= 10 ^ Z.of_nat (String.length ds'))
      by (apply Z.pow_le_mono_r; lia).
    lia. }
  destruct (val <? 0); cbn [String.length]; lia.
Qed.

Lemma what_length_stored (err : nvcompError_t) (msg : string) :
  String.length (what (NVCompException_new err msg))
  = (String.length msg + 9 + String.length (to_string err))%nat.
Proof.
  cbn [what NVCompException_new]. rewrite !length_append. cbn [String.length]. lia.
Qed.

(** X2: the length of [what()], read as the C string it is.  For a
    caller's message without NUL and a code in the range of [int] it is
    the length of the caller's message, 9 more characters and the digits
    of the code: between 10 and 20 characters more than the caller's
    message, so never empty.  For a caller's message with a NUL it is
    less than the length of the caller's message (the position of its
    first NUL), and it is 0 when the message starts with NUL. *)
Theorem what_c_str_length :
  (forall (err : nvcompError_t) (msg : string),
      - 2 ^ 31 <= err < 2 ^ 31 ->
      occurs nul msg = false ->
      String.length (what_c_str (NVCompException_new err msg))
      = (String.length msg + 9 + String.length (to_string err))%nat /\
      (String.length msg + 10
       <= String.length (what_c_str (NVCompException_new err msg))
       <= String.length msg + 20)%nat) /\
  (forall (err : nvcompError_t) (msg : string),
      occurs nul msg = true ->
      String.length (what_c_str (NVCompException_new err msg))
      = String.length (c_str msg) /\
      (String.length (what_c_str (NVCompException_new err msg))
       < String.length msg)%nat) /\
  (forall (err : nvcompError_t) (rest : string),
      what_c_str (NVCompException_new err (String nul rest)) = EmptyString).
Proof.
  split; [| split].
  - intros err msg Hrange Hfree.
    pose proof (to_string_length err Hrange) as Hlen.
    rewrite what_c_str_cases, Hfree, what_length_stored. lia.
  - intros err msg Hnul. rewrite what_c_str_cases, Hnul.
    split; [reflexivity | now apply c_str_length].
  - intros err rest. now rewrite what_c_str_cases.
Qed.

Lemma what_c_str_length_int_min :
  - 2 ^ 31 <= - 2147483648 < 2 ^ 31 /\
  occurs nul "compress" = false /\
  String.length (what_c_str (NVCompException_new (- 2147483648) "compress"))
  = (8 + 20)%nat.
Proof.
  split; [lia |]. split; [reflexivity |].
  pose proof (proj1 what_c_str_length (- 2147483648) "compress"
                ltac:(lia) eq_refl) as [Heq _].
  rewrite Heq. reflexivity.
Defined.

(** *** From a status code to an exception and back *)

Section CallersProperties.
Context {codes : nvcomp_h}.

(** X3: translating a status code into an exception loses nothing: a
    caller that runs [throwExceptionIfError(err, msg)], catches the
    exception and returns its [get_error()], and returns [nvcompSuccess]
    when nothing was thrown, returns [err], for every [err]; and when more
    statements follow the check the caller returns [err] if it is a
    failure and the status of the statements otherwise. *)
Theorem status_of_throwExceptionIfError :
  forall (err : nvcompError_t) (msg : string),
    status_of (throwExceptionIfError err msg) = err /\
    (forall rest : unit -> Result unit,
        status_of (bind (throwExceptionIfError err msg) rest)
        = if err =? nvcompSuccess then status_of (rest tt) else err).
Proof.
  intros err msg. unfold throwExceptionIfError.
  destruct (Z.eqb_spec err nvcompSuccess) as [-> | Hne]; cbn; auto.
Qed.

(** X4: in a sequence of checks the first failure is the one thrown,
    with its own message, and no later check changes that; the sequence
    returns normally exactly when every status is [nvcompSuccess]. *)
Theorem check_all_first_failure :
  forall checks : list (nvcompError_t * string),
    check_all checks
    = match find is_failure checks with
      | Some (err, msg) => Throw (NVCompException_new err msg)
      | None => Return tt
      end /\
    (check_all checks = Return tt <->
     Forall (fun check => check.1 = nvcompSuccess) checks) /\
    (forall (before after : list (nvcompError_t * string))
            (err : nvcompError_t) (msg : string),
        checks = before ++ (err, msg) :: after ->
        Forall (fun check => check.1 = nvcompSuccess) before ->
        err <> nvcompSuccess ->
        check_all checks = Throw (NVCompException_new err msg)).
Proof.
  intros checks.
  assert (Hfind : forall l : list (nvcompError_t * string),
             check_all l
             = match find is_failure l with
               | Some (err, msg) => Throw (NVCompException_new err msg)
               | None => Return tt
               end).
  { induction l as [|[err msg] l IH]; [reflexivity |].
    cbn [check_all find]. unfold is_failure at 1, throwExceptionIfError. cbn [fst].
    destruct (Z.eqb_spec err nvcompSuccess); cbn; auto. }
  split; [apply Hfind |]. split.
  - rewrite Hfind. induction checks as [|[err msg] l IH]; cbn [find].
    + split; auto.
    + unfold is_failure at 1. cbn [fst].
      destruct (Z.eqb_spec err nvcompSuccess) as [Heq | Hne]; cbn [negb].
      * rewrite IH. split; [intros H; constructor; auto |].
        now intros H; inversion H.
      * split; [discriminate |]. intros H. inversion H. contradiction.
  - intros before after err msg -> Hbefore Hne. rewrite Hfind.
    induction Hbefore as [|[e m] l He _ IH]; cbn [app find].
    + unfold is_failure. cbn [fst].
      apply Z.eqb_neq in Hne. now rewrite Hne.
    + unfold is_failure at 1. cbn [fst] in *.
      apply Z.eqb_eq in He. now rewrite He.
Qed.

End CallersProperties.

Lemma check_all_first_failure_example :
  check_all (codes := nvcomp_h_upstream)
    [(0, "configure"); (10, "compress"); (1000, "synchronize")]
  = Throw (NVCompException_new 10 "compress").
Proof.
  refine (proj2 (proj2 (check_all_first_failure (codes := nvcomp_h_upstream) _))
            [(0, "configure")] [(1000, "synchronize")] 10 "compress" eq_refl _ _).
  - repeat constructor.
  - discriminate.
Defined.

(** *** getnvcompType on any platform *)

Section TypeDispatchAnyPlatform.
Context {codes : nvcomp_h}.
Variable P : Platform.

Lemma getnvcompType_Return_alias (T : CppType) (tag : nvcompType_t) :
  getnvcompType P T = Return tag -> T = alias_of_tag P tag.
Proof.
  unfold getnvcompType.
  repeat match goal with
         | |- context [is_same ?A ?B] =>
             destruct (is_same A B) eqn:?;
             [ intros [= <-]; now apply is_same_spec |]
         end.
  discriminate.
Qed.

Lemma getnvcompType_throws_iff (T : CppType) :
  throws (getnvcompType P T) = true <-> T ∉ supported_types P.
Proof.
  split.
  - intros Hthrows Hin.
    unfold supported_types in Hin. rewrite !elem_of_cons, elem_of_nil in Hin.
    unfold getnvcompType in Hthrows.
    repeat (destruct Hin as [-> | Hin];
            [ rewrite ?is_same_refl in Hthrows;
              repeat match type of Hthrows with
                     | context [is_same ?A ?B] => destruct (is_same A B)
                     end; discriminate |]).
    contradiction.
  - intros Hout. unfold supported_types in Hout. rewrite !not_elem_of_cons in Hout.
    destruct Hout as (? & ? & ? & ? & ? & ? & ? & ? & _).
    unfold getnvcompType. now rewrite !is_same_ne by assumption.
Qed.

(** X5: whatever the aliases of the platform name, [getnvcompType]
    returns a tag only for a type that is identical to the alias of that
    tag, it throws exactly for the types outside the eight aliases, and
    the first test always succeeds on [int8_t]. *)
Theorem getnvcompType_sound :
  (forall (T : CppType) (tag : nvcompType_t),
      getnvcompType P T = Return tag -> T = alias_of_tag P tag) /\
  (forall T : CppType,
      throws (getnvcompType P T) = true <-> T ∉ supported_types P) /\
  getnvcompType P (int8_t P) = Return NVCOMP_TYPE_CHAR.
Proof.
  split; [exact getnvcompType_Return_alias |].
  split; [exact getnvcompType_throws_iff |].
  unfold getnvcompType. now rewrite is_same_refl.
Qed.

End TypeDispatchAnyPlatform.

(** Where two aliases name one type the earlier test wins, and the tag
    of the later alias is never returned for it. *)
Example getnvcompType_char_aliases :
  getnvcompType (codes := nvcomp_h_upstream) char_aliases_platform
    (uint8_t char_aliases_platform) = Return NVCOMP_TYPE_CHAR /\
  cstdint_conforming char_aliases_platform = false.
Proof. split; reflexivity. Qed.

(** *** The tag tells the width and the signedness *)

Lemma tag_kind_inj (tag tag' : nvcompType_t) :
  tag_kind tag = tag_kind tag' -> tag = tag'.
Proof. destruct tag, tag'; intros H; first [reflexivity | discriminate H]. Qed.

Lemma alias_of_tag_kind {codes : nvcomp_h} (P : Platform) (tag : nvcompType_t) :
  cstdint_conforming P = true ->
  integer_kind P (alias_of_tag P tag) = Some (tag_kind tag).
Proof.
  intros Hconf.
  destruct (alias_kinds P Hconf) as ((? & ? & ? & ?) & (? & ? & ? & ?)).
  destruct tag; assumption.
Qed.

(** X6: on a platform with a conforming [<cstdint>] the tag returned for
    a type tells the signedness and the width of the type; so of two
    types that both get a tag, on one platform or on two, the tags are
    the same exactly when the types agree in signedness and width,
    although they may be different types ([long] on 64-bit Linux and
    [long long] on 64-bit Windows).  A type that gets no tag is outside
    this: agreeing in signedness and width with a supported type does not
    make a type supported. *)
Theorem getnvcompType_tag_kind :
  forall (codes : nvcomp_h) (P Q : Platform),
    cstdint_conforming P = true ->
    cstdint_conforming Q = true ->
    forall (T U : CppType) (tagT tagU : nvcompType_t),
      getnvcompType P T = Return tagT ->
      getnvcompType Q U = Return tagU ->
      integer_kind P T = Some (tag_kind tagT) /\
      (tagT = tagU <-> integer_kind P T = integer_kind Q U).
Proof.
  intros codes P Q HP HQ T U tagT tagU HT HU.
  apply getnvcompType_Return_alias in HT.
  apply getnvcompType_Return_alias in HU. subst T U.
  rewrite !alias_of_tag_kind by assumption.
  split; [reflexivity |]. split; [now intros -> |].
  intros [= Hkind]. now apply tag_kind_inj.
Qed.

Lemma getnvcompType_tag_kind_linux_windows :
  integer_kind linux_x86_64 t_long = Some (true, 64) /\
  (NVCOMP_TYPE_LONGLONG = NVCOMP_TYPE_LONGLONG <->
   integer_kind linux_x86_64 t_long = integer_kind windows_x64 t_long_long).
Proof.
  exact (getnvcompType_tag_kind nvcomp_h_upstream linux_x86_64 windows_x64
           eq_refl eq_refl t_long t_long_long
           NVCOMP_TYPE_LONGLONG NVCOMP_TYPE_LONGLONG eq_refl eq_refl).
Defined.

(** *** The types that are refused *)

Lemma is_standard_integer_spec (T : CppType) :
  is_standard_integer T = true <-> T ∈ standard_integer_types.
Proof.
  unfold standard_integer_types. rewrite !elem_of_cons, elem_of_nil.
  split.
  - destruct T; cbn; intros H; try discriminate H; tauto.
  - intros H. repeat (destruct H as [-> | H]; [reflexivity |]). contradiction.
Qed.

Lemma count_signed_app (P : Platform) (l k : list CppType) :
  count_signed P (l ++ k) = (count_signed P l + count_signed P k)%nat.
Proof. induction l as [|T l IH]; cbn; [reflexivity | rewrite IH; lia]. Qed.

Lemma count_signed_Permutation (P : Platform) (l k : list CppType) :
  l ≡ₚ k -> count_signed P l = count_signed P k.
Proof. induction 1; cbn; lia. Qed.

Section RefusedTypes.
Context {codes : nvcomp_h}.
Variable P : Platform.
Hypothesis conforming : cstdint_conforming P = true.

(** X7: on a platform with a conforming [<cstdint>] every type that is
    not a standard integer type is refused: the const-qualified version
    of any type, supported or not, every pointer and class type, the
    floating-point types, [bool] and the character types [char],
    [char16_t], [char32_t]. *)
Theorem getnvcompType_refuses_other_types :
  (forall T : CppType,
      is_standard_integer T = false -> getnvcompType P T = Throw unsupported_type) /\
  (forall T : CppType,
      getnvcompType P (t_const T) = Throw unsupported_type /\
      getnvcompType P (t_pointer T) = Throw unsupported_type) /\
  (forall name : string, getnvcompType P (t_class name) = Throw unsupported_type) /\
  getnvcompType P t_float = Throw unsupported_type /\
  getnvcompType P t_double = Throw unsupported_type /\
  getnvcompType P t_char16_t = Throw unsupported_type /\
  getnvcompType P t_char32_t = Throw unsupported_type.
Proof.
  assert (Hother : forall T : CppType,
             is_standard_integer T = false ->
             getnvcompType P T = Throw unsupported_type).
  { intros T Hstd. apply getnvcompType_unsupported. intros Hin.
    apply (alias_standard P conforming) in Hin. congruence. }
  repeat split; intros; now apply Hother.
Qed.

(** The supported types are eight of the ten standard integer types. *)
Lemma supported_standard : supported_types P ⊆+ standard_integer_types.
Proof.
  apply NoDup_submseteq; [apply (supported_types_NoDup P conforming) |].
  intros T HT. apply is_standard_integer_spec. now apply (alias_standard P conforming).
Qed.

Lemma count_signed_supported : count_signed P (supported_types P) = 4%nat.
Proof.
  destruct (alias_kinds P conforming) as ((H1 & H2 & H3 & H4) & (H5 & H6 & H7 & H8)).
  unfold supported_types. cbn [count_signed]. unfold is_signed.
  now rewrite H1, H2, H3, H4, H5, H6, H7, H8.
Qed.

(** X8: on a platform with a conforming [<cstdint>] exactly two of the
    ten standard integer types are refused, one signed and one unsigned
    (the eight others are the aliases). *)
Theorem getnvcompType_refuses_two_standard_types :
  exists refused_signed refused_unsigned : CppType,
    standard_integer_types
    ≡ₚ supported_types P ++ [refused_signed; refused_unsigned] /\
    (exists bits : Z, integer_kind P refused_signed = Some (true, bits)) /\
    (exists bits : Z, integer_kind P refused_unsigned = Some (false, bits)) /\
    getnvcompType P refused_signed = Throw unsupported_type /\
    getnvcompType P refused_unsigned = Throw unsupported_type /\
    (forall T : CppType,
        T ∈ standard_integer_types ->
        throws (getnvcompType P T) = true ->
        T = refused_signed \/ T = refused_unsigned).
Proof.
  destruct (submseteq_Permutation _ _ supported_standard) as [k Hk].
  assert (Hlen : length k = 2%nat).
  { apply Permutation_length in Hk. rewrite length_app in Hk. cbn in Hk. lia. }
  destruct k as [|a [|b [|? ?]]]; try discriminate Hlen. clear Hlen.
  assert (Hnd : NoDup (supported_types P ++ [a; b])).
  { rewrite <- Hk. apply (bool_decide_eq_true_1 _). reflexivity. }
  apply NoDup_app in Hnd as (_ & Hdisj & _).
  assert (Ha : getnvcompType P a = Throw unsupported_type).
  { apply getnvcompType_unsupported. intros Hin.
    apply (Hdisj a Hin). rewrite !elem_of_cons. tauto. }
  assert (Hb : getnvcompType P b = Throw unsupported_type).
  { apply getnvcompType_unsupported. intros Hin.
    apply (Hdisj b Hin). rewrite !elem_of_cons. tauto. }
  assert (Honly : forall T : CppType,
             T ∈ standard_integer_types ->
             throws (getnvcompType P T) = true -> T = a \/ T = b).
  { intros T Hstd Hthrows.
    apply getnvcompType_throws_iff in Hthrows.
    rewrite Hk, elem_of_app, !elem_of_cons, elem_of_nil in Hstd. tauto. }
  assert (Hcount : count_signed P [a; b] = 1%nat).
  { pose proof (count_signed_Permutation P _ _ Hk) as Hc.
    rewrite count_signed_app, count_signed_supported in Hc.
    cbn in Hc. cbn. lia. }
  assert (Hstd : forall T : CppType,
             T ∈ [a; b] -> exists bits : Z, integer_kind P T = Some (is_signed P T, bits)).
  { intros T HT.
    assert (HT' : T ∈ standard_integer_types)
      by (rewrite Hk, elem_of_app; now right).
    apply is_standard_integer_spec in HT'.
    unfold is_signed. destruct T; try discriminate HT'; cbn; eauto. }
  destruct (Hstd a) as [wa Hka]; [rewrite !elem_of_cons; tauto |].
  destruct (Hstd b) as [wb Hkb]; [rewrite !elem_of_cons; tauto |].
  cbn in Hcount.
  destruct (is_signed P a) eqn:Hsa, (is_signed P b) eqn:Hsb; try discriminate Hcount.
  - exists a, b. repeat split; eauto.
  - exists b, a. split.
    + rewrite Hk. apply Permutation_app_head, perm_swap.
    + repeat split; eauto. intros T HT Hthrows.
      destruct (Honly T HT Hthrows); auto.
Qed.

End RefusedTypes.

(** On 64-bit Linux a [const int] and a pointer to it are refused. *)
Lemma getnvcompType_refuses_other_types_linux :
  cstdint_conforming linux_x86_64 = true /\
  getnvcompType (codes := nvcomp_h_upstream) linux_x86_64 (t_const t_int)
  = Throw (NVCompException_new 11 "nvcomp does not support the given type.") /\
  getnvcompType (codes := nvcomp_h_upstream) linux_x86_64 (t_pointer t_int)
  = Throw (NVCompException_new 11 "nvcomp does not support the given type.").
Proof.
  split; [reflexivity |].
  exact (proj1 (proj2 (getnvcompType_refuses_other_types
                         (codes := nvcomp_h_upstream) linux_x86_64 eq_refl))
               t_int).
Defined.

(** On 64-bit Linux the two refused standard integer types are
    [long long] and [unsigned long long]; on 64-bit Windows they are
    [long] and [unsigned long]. *)
Lemma getnvcompType_refuses_two_standard_types_linux :
  cstdint_conforming linux_x86_64 = true /\
  exists refused_signed refused_unsigned : CppType,
    standard_integer_types
    ≡ₚ supported_types linux_x86_64 ++ [refused_signed; refused_unsigned] /\
    (exists bits : Z, integer_kind linux_x86_64 refused_signed = Some (true, bits)) /\
    (exists bits : Z, integer_kind linux_x86_64 refused_unsigned = Some (false, bits)) /\
    getnvcompType (codes := nvcomp_h_upstream) linux_x86_64 refused_signed
    = Throw (unsupported_type (codes := nvcomp_h_upstream)) /\
    getnvcompType (codes := nvcomp_h_upstream) linux_x86_64 refused_unsigned
    = Throw (unsupported_type (codes := nvcomp_h_upstream)) /\
    (forall T : CppType,
        T ∈ standard_integer_types ->
        throws (getnvcompType (codes := nvcomp_h_upstream) linux_x86_64 T) = true ->
        T = refused_signed \/ T = refused_unsigned).
Proof.
  split; [reflexivity |].
  exact (getnvcompType_refuses_two_standard_types
           (codes := nvcomp_h_upstream) linux_x86_64 eq_refl).
Defined.

Example refused_standard_types :
  filter (fun T => throws (getnvcompType (codes := nvcomp_h_upstream) linux_x86_64 T) = true)
         standard_integer_types = [t_long_long; t_unsigned_long_long] /\
  filter (fun T => throws (getnvcompType (codes := nvcomp_h_upstream) windows_x64 T) = true)
         standard_integer_types = [t_long; t_unsigned_long].
Proof. split; reflexivity. Qed.
